(** * NihongoFlow: a shallow embedding of the player, the history store
      and the WAV encoder, with the properties of their specification.

    The development follows the TypeScript sources:
    - [services/geminiService] : [pcmToWav], [writeString],
      [analyzeJapaneseText], [generateJapaneseSpeech];
    - [types]                  : [Token], [HistoryItem], [Segment];
    - [components/Player]      : [segments], [handleTimeUpdate],
      [handleEnded], [handleWordClick], [isSegmentActive], the repeat menu;
    - [App]                    : [handleGenerate], [handleUpdateProgress],
      [handleDeleteHistory].

    Conventions.  A JavaScript string is the list of its UTF-16 code
    units, so [.length] is [length] and [+] is [++].  A JavaScript number
    that the program only ever uses as an integer (indices, lengths,
    repeat counts, timestamps in ms) is a [Z]; a number that carries
    seconds or a speed multiplier is an IEEE-754 binary64 [float], with
    the kernel's own arithmetic.  React state is threaded explicitly: a
    handler is a function from the state it closes over to the state
    after its setters have run; where a statement of the handler can
    throw, the result is a completion, [Normal] with that state or
    [Throw] with the exception. *)

From Stdlib Require Import ZArith List Lia Ascii String.
From Stdlib.Strings Require Import Byte.
From Stdlib Require Import Floats.
From stdpp Require Import base option list.

Local Open Scope Z_scope.

(* ===================================================================== *)
(** * Part I.  The embedding                                              *)
(* ===================================================================== *)

(** ** JavaScript values *)

Module Js.

(** One UTF-16 code unit. *)
Definition char16 : Type := N.

Definition jsstring : Type := list char16.

(** A literal: every character of an ASCII literal is one code unit. *)
Definition lit (s : string) : jsstring :=
  map N_of_ascii (list_ascii_of_string s).

(** [s.length], as the integer-valued number it is. *)
Definition jslength (s : jsstring) : Z := Z.of_nat (length s).

(** [WhiteSpace] and [LineTerminator] of ECMA-262, the code units that
    [String.prototype.trim] strips. *)
Definition isWhiteSpace (c : char16) : bool :=
  ((9 <=? c) && (c <=? 13) || (c =? 32) || (c =? 160) || (c =? 5760)
   || (8192 <=? c) && (c <=? 8202) || (c =? 8232) || (c =? 8233)
   || (c =? 8239) || (c =? 8287) || (c =? 12288) || (c =? 65279))%N.

Fixpoint trimStart (s : jsstring) : jsstring :=
  match s with
  | c :: r => if isWhiteSpace c then trimStart r else s
  | [] => []
  end.

Definition trim (s : jsstring) : jsstring :=
  rev (trimStart (rev (trimStart s))).

(** Truthiness of a string: [!s] holds exactly for the empty string. *)
Definition falsy (s : jsstring) : bool :=
  match s with [] => true | _ :: _ => false end.

(** [a || b] on an optional string ([undefined] and [""] are falsy). *)
Definition or_else (a : option jsstring) (b : jsstring) : jsstring :=
  match a with
  | Some s => if falsy s then b else s
  | None => b
  end.

(** The number that an integer denotes.  Exact for [|z| < 2^53], which
    covers every string length and index. *)
Definition Z2F (z : Z) : float :=
  if z <? 0 then PrimFloat.opp (PrimFloat.of_uint63 (Uint63.of_Z (- z)))
  else PrimFloat.of_uint63 (Uint63.of_Z z).

(** [Math.floor x] as an integer; [None] for NaN and the infinities,
    which [Math.floor] returns unchanged.  A finite float is
    [(-1)^s * m * 2^e]; shifting by a negative amount is flooring
    division by a power of two. *)
Definition floorZ (x : float) : option Z :=
  match Prim2SF x with
  | S754_zero _ => Some 0
  | S754_finite s m e => Some (Z.shiftl (if s then Z.neg m else Z.pos m) e)
  | S754_infinity _ | S754_nan => None
  end.

(** [Math.floor(x) % 2 === 0]: the remainder takes the sign of the
    dividend; NaN is equal to nothing. *)
Definition floor_is_even (x : float) : bool :=
  match floorZ x with
  | Some z => Z.rem z 2 =? 0
  | None => false
  end.

(** What [Promise.allSettled] reports for one promise.  A rejection
    carries [reason?.message]. *)
Inductive PromiseSettledResult (A : Type) : Type :=
  | fulfilled (value : A)
  | rejected (message : option jsstring).

Arguments fulfilled {A} value.
Arguments rejected {A} message.

(** The exceptions that the platform raises in the code followed here:
    a [TypeError] (a property read of [null]; a number that is not finite
    where a WebIDL [double] is expected) and the DOMException named
    [NotSupportedError]. *)
Inductive exception : Type :=
  | TypeError
  | NotSupportedError.

(** The completion of a statement sequence that may throw. *)
Inductive completion (A : Type) : Type :=
  | Normal (value : A)
  | Throw (e : exception).

Arguments Normal {A} value.
Arguments Throw {A} e.

(** Sequencing: the rest runs on a normal completion, a throw ends it. *)
Definition bind {A B : Type} (c : completion A) (k : A -> completion B)
  : completion B :=
  match c with
  | Normal value => k value
  | Throw e => Throw e
  end.

End Js.

Import Js.

(** ** [types.ts] *)

Module Token.
Record t : Type := mk {
  surface : jsstring;
  reading : option jsstring   (* Hiragana, only for kanji words *)
}.
End Token.

Module RepeatMode.
Definition ONCE : Z := 1.
Definition FIVE : Z := 5.
Definition TEN : Z := 10.
Definition THIRTY : Z := 30.
End RepeatMode.

Module HistoryItem.
Record t : Type := mk {
  id : jsstring;
  text : jsstring;
  tokens : option (list Token.t);
  createdAt : Z;
  lastPosition : float;        (* in seconds *)
  repeatMode : Z;
  playbackRate : option float
}.
End HistoryItem.

Module Segment.
Record t : Type := mk {
  segment : jsstring;
  reading : option jsstring;
  index : Z;
  input : jsstring;
  isWordLike : bool;
  startCharIndex : Z;
  endCharIndex : Z
}.
End Segment.

(** ** [services/geminiService]: the WAV encoder *)

Module Wav.

(** An [ArrayBuffer] is its bytes; a [DataView] or [Uint8Array] over it
    writes into the same bytes. *)
Definition ArrayBuffer : Type := list Byte.byte.

Definition new_ArrayBuffer (n : nat) : ArrayBuffer := replicate n Byte.x00.

(** Byte [k] of the two's complement representation of [v]. *)
Definition byte_of (v : Z) (k : Z) : Byte.byte :=
  match Byte.of_N (Z.to_N (Z.land (Z.shiftr v (8 * k)) 255)) with
  | Some b => b
  | None => Byte.x00
  end.

Definition byte_val (b : Byte.byte) : Z := Z.of_N (Byte.to_N b).

(** Writing [bs] at [offset]; a write that does not fit raises
    [RangeError], here [None]. *)
Definition store (buf : ArrayBuffer) (offset : nat) (bs : list Byte.byte)
  : option ArrayBuffer :=
  if (offset + length bs <=? length buf)%nat
  then Some (take offset buf ++ bs ++ drop (offset + length bs) buf)
  else None.

(** [view.setUint8(offset, v)]: [v] modulo [2^8]. *)
Definition setUint8 (view : ArrayBuffer) (offset : nat) (v : Z)
  : option ArrayBuffer :=
  store view offset [byte_of v 0].

(** [view.setUint16(offset, v, true)]: [v] modulo [2^16], little-endian. *)
Definition setUint16 (view : ArrayBuffer) (offset : nat) (v : Z)
  : option ArrayBuffer :=
  store view offset [byte_of v 0; byte_of v 1].

(** [view.setUint32(offset, v, true)]: [v] modulo [2^32], little-endian. *)
Definition setUint32 (view : ArrayBuffer) (offset : nat) (v : Z)
  : option ArrayBuffer :=
  store view offset [byte_of v 0; byte_of v 1; byte_of v 2; byte_of v 3].

(** [view.getUint16(offset, true)] and [view.getUint32(offset, true)],
    the readers a consumer of the container decodes the header with. *)
Definition getUint16 (view : ArrayBuffer) (offset : nat) : option Z :=
  b0 ← view !! offset;
  b1 ← view !! (offset + 1)%nat;
  Some (byte_val b0 + 2 ^ 8 * byte_val b1).

Definition getUint32 (view : ArrayBuffer) (offset : nat) : option Z :=
  b0 ← view !! offset;
  b1 ← view !! (offset + 1)%nat;
  b2 ← view !! (offset + 2)%nat;
  b3 ← view !! (offset + 3)%nat;
  Some (byte_val b0 + 2 ^ 8 * byte_val b1 + 2 ^ 16 * byte_val b2
        + 2 ^ 24 * byte_val b3).

(** [writeString]: one [setUint8] per code unit, at [offset + i]. *)
Fixpoint writeString (view : ArrayBuffer) (offset : nat) (s : jsstring)
  : option ArrayBuffer :=
  match s with
  | [] => Some view
  | c :: r =>
      view' ← setUint8 view offset (Z.of_N c);
      writeString view' (S offset) r
  end.

(** [new Uint8Array(buffer, byteOffset).set(src)]. *)
Definition Uint8Array_set (buffer : ArrayBuffer) (byteOffset : nat)
  (src : list Byte.byte) : option ArrayBuffer :=
  store buffer byteOffset src.

Definition pcmToWav (pcmData : list Byte.byte) (sampleRate : Z)
  : option ArrayBuffer :=
  let numChannels := 1 in
  let bitsPerSample := 16 in
  let byteRate := (sampleRate * numChannels * bitsPerSample) / 8 in
  let blockAlign := (numChannels * bitsPerSample) / 8 in
  let dataSize := length pcmData in
  let buffer := new_ArrayBuffer (44 + dataSize) in
  (* RIFF chunk descriptor *)
  view ← writeString buffer 0 (lit "RIFF");
  view ← setUint32 view 4 (36 + Z.of_nat dataSize);
  view ← writeString view 8 (lit "WAVE");
  (* fmt sub-chunk *)
  view ← writeString view 12 (lit "fmt ");
  view ← setUint32 view 16 16;
  view ← setUint16 view 20 1;
  view ← setUint16 view 22 numChannels;
  view ← setUint32 view 24 sampleRate;
  view ← setUint32 view 28 byteRate;
  view ← setUint16 view 32 blockAlign;
  view ← setUint16 view 34 bitsPerSample;
  (* data sub-chunk *)
  view ← writeString view 36 (lit "data");
  view ← setUint32 view 40 (Z.of_nat dataSize);
  (* PCM data *)
  Uint8Array_set view 44 pcmData.

(** The closed form of what [pcmToWav] writes in front of the payload
    (see [pcmToWav_eq]): three little-endian encoders and the 44 bytes. *)
Definition le16 (v : Z) : list Byte.byte := [byte_of v 0; byte_of v 1].

Definition le32 (v : Z) : list Byte.byte :=
  [byte_of v 0; byte_of v 1; byte_of v 2; byte_of v 3].

Definition ascii_bytes (s : string) : list Byte.byte :=
  map (fun c => byte_of (Z.of_N c) 0) (lit s).

Definition header (sampleRate : Z) (dataSize : Z) : list Byte.byte :=
  ascii_bytes "RIFF" ++ le32 (36 + dataSize) ++ ascii_bytes "WAVE"
  ++ ascii_bytes "fmt " ++ le32 16 ++ le16 1 ++ le16 1
  ++ le32 sampleRate ++ le32 (sampleRate * 1 * 16 / 8)
  ++ le16 (1 * 16 / 8) ++ le16 16
  ++ ascii_bytes "data" ++ le32 dataSize.

(** Gemini TTS speech is 24 kHz. *)
Definition SAMPLE_RATE : Z := 24000.

End Wav.

(** ** [components/Player] *)

(** What iterating [segmenter.segment(text)] yields. *)
Module SegmentData.
Record t : Type := mk {
  segment : jsstring;
  index : Z;
  input : jsstring;
  isWordLike : bool
}.
End SegmentData.

(** The [<audio>] element behind [audioRef.current], as far as the
    player touches it. *)
Module Audio.
Record t : Type := mk {
  currentTime : float;
  duration : float;
  paused : bool;
  playbackRate : float
}.

(** The element when playback has brought it to media time [time]. *)
Definition at_time (time : float) (a : t) : t :=
  mk time (duration a) (paused a) (playbackRate a).

(** The element when it has sought to [v].  A position later than the
    end of the media becomes the end, one before the start becomes 0, in
    this order.  Without metadata ([duration] is NaN) there is nothing to
    seek in, and [v] is kept as the position where playback will start. *)
Definition seek (v : float) (a : t) : t :=
  let d := duration a in
  let v1 := if PrimFloat.ltb d v then d else v in
  let v2 := if PrimFloat.ltb v1 0 then 0%float else v1 in
  mk (if PrimFloat.is_nan d then v else v2) d (paused a) (playbackRate a).

(** [audio.currentTime = v].  The attribute is a WebIDL [double]: NaN
    and the infinities throw a [TypeError] and leave the element alone. *)
Definition set_currentTime (v : float) (a : t) : completion t :=
  if PrimFloat.is_finite v then Normal (seek v a) else Throw TypeError.

(** [play()] and [pause()]. *)
Definition play (a : t) : t :=
  mk (currentTime a) (duration a) false (playbackRate a).

Definition pause (a : t) : t :=
  mk (currentTime a) (duration a) true (playbackRate a).

(** [audio.playbackRate = v].  A [double] again; and a rate that the
    user agent does not support throws a [NotSupportedError].  Which
    rates it supports is the user agent's choice, [rateSupported]. *)
Definition set_playbackRate (rateSupported : float -> bool) (v : float) (a : t)
  : completion t :=
  if PrimFloat.is_finite v then
    if rateSupported v
    then Normal (mk (currentTime a) (duration a) (paused a) v)
    else Throw NotSupportedError
  else Throw TypeError.
End Audio.

Module Player.

(** [(Intl as any).Segmenter], instantiated for ['ja-JP'] at word
    granularity, where the platform has one. *)
Definition Segmenter : Type := jsstring -> list SegmentData.t.

Record Props : Type := mkProps {
  activeItem : HistoryItem.t;
  audioUrl : option jsstring
}.

(** One call of [onUpdateProgress(id, progress, repeatMode, playbackRate)]. *)
Record ProgressUpdate : Type := mkProgressUpdate {
  pu_id : jsstring;
  pu_progress : float;
  pu_repeatMode : Z;
  pu_playbackRate : float
}.

Record State : Type := mkState {
  audioRef : option Audio.t;
  isPlaying : bool;
  currentTime : float;
  duration : float;
  repeatMode : Z;
  playbackRate : float;
  currentRepeatCount : Z;
  showRepeatMenu : bool;
  showSpeedMenu : bool
}.

(** The state setters. *)
Definition setAudio (v : option Audio.t) (st : State) : State :=
  mkState v (isPlaying st) (currentTime st) (duration st) (repeatMode st)
    (playbackRate st) (currentRepeatCount st) (showRepeatMenu st)
    (showSpeedMenu st).

Definition setIsPlaying (v : bool) (st : State) : State :=
  mkState (audioRef st) v (currentTime st) (duration st) (repeatMode st)
    (playbackRate st) (currentRepeatCount st) (showRepeatMenu st)
    (showSpeedMenu st).

Definition setCurrentTime (v : float) (st : State) : State :=
  mkState (audioRef st) (isPlaying st) v (duration st) (repeatMode st)
    (playbackRate st) (currentRepeatCount st) (showRepeatMenu st)
    (showSpeedMenu st).

Definition setDuration (v : float) (st : State) : State :=
  mkState (audioRef st) (isPlaying st) (currentTime st) v (repeatMode st)
    (playbackRate st) (currentRepeatCount st) (showRepeatMenu st)
    (showSpeedMenu st).

Definition setRepeatMode (v : Z) (st : State) : State :=
  mkState (audioRef st) (isPlaying st) (currentTime st) (duration st) v
    (playbackRate st) (currentRepeatCount st) (showRepeatMenu st)
    (showSpeedMenu st).

Definition setCurrentRepeatCount (v : Z) (st : State) : State :=
  mkState (audioRef st) (isPlaying st) (currentTime st) (duration st)
    (repeatMode st) (playbackRate st) v (showRepeatMenu st)
    (showSpeedMenu st).

Definition setShowRepeatMenu (v : bool) (st : State) : State :=
  mkState (audioRef st) (isPlaying st) (currentTime st) (duration st)
    (repeatMode st) (playbackRate st) (currentRepeatCount st) v
    (showSpeedMenu st).

(** [x || d] on a number: [0], [-0] and NaN are falsy. *)
Definition num_or (x d : float) : float :=
  if PrimFloat.eqb x x then (if PrimFloat.eqb x 0 then d else x) else d.

(** The state of the first render, before the element is mounted. *)
Definition init (props : Props) : State :=
  let item := activeItem props in
  mkState None false
    (num_or (HistoryItem.lastPosition item) 0)
    0
    (if HistoryItem.repeatMode item =? 0 then RepeatMode.ONCE
     else HistoryItem.repeatMode item)
    (match HistoryItem.playbackRate item with
     | Some r => num_or r 1
     | None => 1
     end)
    1 false false.

(** *** The segments ([useMemo]) *)

(** The [forEach] over the stored tokens, from token [idx] on, with
    [charIndex] characters before it. *)
Fixpoint tokenSegments (tokens : list Token.t) (idx charIndex : Z)
  : list Segment.t :=
  match tokens with
  | [] => []
  | token :: rest =>
      Segment.mk (Token.surface token) (Token.reading token) idx
        (Token.surface token) true
        charIndex (charIndex + jslength (Token.surface token))
      :: tokenSegments rest (idx + 1)
           (charIndex + jslength (Token.surface token))
  end.

(** The [for ... of] over the segmenter's iterator. *)
Fixpoint iteratorSegments (iterator : list SegmentData.t) (charIndex : Z)
  : list Segment.t :=
  match iterator with
  | [] => []
  | seg :: rest =>
      Segment.mk (SegmentData.segment seg) None (SegmentData.index seg)
        (SegmentData.input seg) (SegmentData.isWordLike seg)
        charIndex (charIndex + jslength (SegmentData.segment seg))
      :: iteratorSegments rest
           (charIndex + jslength (SegmentData.segment seg))
  end.

(** The fallback, for old history or a failed analysis. *)
Definition fallbackSegments (Intl_Segmenter : option Segmenter)
  (text : jsstring) : list Segment.t :=
  if falsy text then []
  else match Intl_Segmenter with
       | None => [Segment.mk text None 0 text true 0 (jslength text)]
       | Some segmenter => iteratorSegments (segmenter text) 0
       end.

Definition segments (Intl_Segmenter : option Segmenter)
  (activeItem : HistoryItem.t) : list Segment.t :=
  match HistoryItem.tokens activeItem with
  | Some tokens =>
      if 0 <? Z.of_nat (length tokens) then tokenSegments tokens 0 0
      else fallbackSegments Intl_Segmenter (HistoryItem.text activeItem)
  | None => fallbackSegments Intl_Segmenter (HistoryItem.text activeItem)
  end.

Definition totalChars (props : Props) : Z :=
  jslength (HistoryItem.text (activeItem props)).

(** *** The handlers *)

(** [onPlay] and [onPause] of the element. *)
Definition onPlay (st : State) : State := setIsPlaying true st.
Definition onPause (st : State) : State := setIsPlaying false st.

(** [audioRef.current.play()] on the mounted element [a]: the element
    plays and its [play] event runs [onPlay]. *)
Definition audio_play (a : Audio.t) (st : State) : State :=
  onPlay (setAudio (Some (Audio.play a)) st).

Definition audio_pause (a : Audio.t) (st : State) : State :=
  onPause (setAudio (Some (Audio.pause a)) st).

Definition togglePlay (props : Props) (st : State) : State :=
  match audioRef st, audioUrl props with
  | Some a, Some url =>
      if falsy url then st
      else
        let st1 := if isPlaying st then audio_pause a st
                   else audio_play a st in
        setIsPlaying (negb (isPlaying st)) st1
  | _, _ => st
  end.

Definition handleTimeUpdate (props : Props) (st : State)
  : State * list ProgressUpdate :=
  match audioRef st with
  | Some a =>
      let time := Audio.currentTime a in
      let st1 := setCurrentTime time st in
      (* Debounce saving progress *)
      if floor_is_even time
      then (st1, [mkProgressUpdate (HistoryItem.id (activeItem props)) time
                    (repeatMode st) (playbackRate st)])
      else (st1, [])
  | None => (st, [])
  end.

Definition handleLoadedMetadata (st : State) : State :=
  match audioRef st with
  | Some a => setDuration (Audio.duration a) st
  | None => st
  end.

(** The assignment of 0 to [currentTime] cannot throw; were it to, the
    handler would end there, with the counter already set. *)
Definition handleEnded (st : State) : State :=
  if currentRepeatCount st <? repeatMode st then
    let st1 := setCurrentRepeatCount (currentRepeatCount st + 1) st in
    match audioRef st1 with
    | Some a =>
        match Audio.set_currentTime 0 a with
        | Normal a1 => audio_play a1 st1
        | Throw _ => st1
        end
    | None => st1
    end
  else
    let st1 := setCurrentRepeatCount 1 (setIsPlaying false st) in
    match audioRef st1 with
    | Some a =>
        match Audio.set_currentTime 0 a with
        | Normal a1 => setAudio (Some a1) st1
        | Throw _ => st1
        end
    | None => st1
    end.

(** A throw of the assignment to [currentTime] ends the handler before
    any setter has run: the state and the element are as they were. *)
Definition handleWordClick (props : Props) (st : State) (seg : Segment.t)
  : completion State :=
  match audioRef st with
  | None => Normal st
  | Some a =>
      if PrimFloat.eqb (duration st) 0 then Normal st
      else
        (* Linear estimation of time based on character position *)
        let estimatedStartTime :=
          (Z2F (Segment.startCharIndex seg) / Z2F (totalChars props)
           * duration st)%float in
        bind (Audio.set_currentTime estimatedStartTime a) (fun a1 =>
        let st1 := setCurrentTime estimatedStartTime (setAudio (Some a1) st) in
        Normal (if isPlaying st then st1
                else setIsPlaying true (audio_play a1 st1)))
  end.

Definition isSegmentActive (props : Props) (st : State) (seg : Segment.t)
  : bool :=
  if PrimFloat.eqb (duration st) 0 then false
  else
    let progress := (currentTime st / duration st)%float in
    let charProgress := (progress * Z2F (totalChars props))%float in
    PrimFloat.leb (Z2F (Segment.startCharIndex seg)) charProgress
    && PrimFloat.ltb charProgress (Z2F (Segment.endCharIndex seg)).

(** The counts the repeat menu offers, and the [onClick] of one entry. *)
Definition REPEAT_COUNTS : list Z := [1; 5; 10; 30].

Definition repeatMenu_onClick (props : Props) (st : State) (count : Z)
  : State * list ProgressUpdate :=
  (setShowRepeatMenu false (setRepeatMode count st),
   [mkProgressUpdate (HistoryItem.id (activeItem props)) (currentTime st)
      count (playbackRate st)]).

(** *** The effects and the speed menu *)

Definition setPlaybackRate (v : float) (st : State) : State :=
  mkState (audioRef st) (isPlaying st) (currentTime st) (duration st)
    (repeatMode st) v (currentRepeatCount st) (showRepeatMenu st)
    (showSpeedMenu st).

Definition setShowSpeedMenu (v : bool) (st : State) : State :=
  mkState (audioRef st) (isPlaying st) (currentTime st) (duration st)
    (repeatMode st) (playbackRate st) (currentRepeatCount st)
    (showRepeatMenu st) v.

(** [0.8] is the double nearest to it. *)
Definition PLAYBACK_SPEEDS : list float :=
  [0x1.999999999999ap-1; 1; 1.5; 2; 3]%float.

(** An effect that throws takes the application down: no component here
    is an error boundary, so React unmounts the tree, and the effects of
    the component that come after the throw do not run.  That is the
    [Throw] of the definitions below; [rateSupported] is the user agent's
    choice of playback rates. *)

(** "Restore position and speed on load", the effect on [audioUrl]. *)
Definition restoreOnLoad (rateSupported : float -> bool) (props : Props)
  (st : State) : completion State :=
  match audioRef st with
  | Some a =>
      let lastPosition := HistoryItem.lastPosition (activeItem props) in
      bind (if PrimFloat.ltb 0 lastPosition
            then bind (Audio.set_currentTime lastPosition a) (fun a1 =>
                 Normal (a1, setCurrentTime lastPosition st))
            else Normal (a, st)) (fun '(a1, st1) =>
      bind (Audio.set_playbackRate rateSupported (playbackRate st) a1)
        (fun a2 =>
      Normal (setAudio (Some a2) st1)))
  | None => Normal st
  end.

(** "Apply playback rate whenever it changes", the effect on
    [playbackRate]; [st] is the render it closes over. *)
Definition playbackRateEffect (rateSupported : float -> bool) (props : Props)
  (st : State) : completion (State * list ProgressUpdate) :=
  bind (match audioRef st with
        | Some a =>
            bind (Audio.set_playbackRate rateSupported (playbackRate st) a)
              (fun a1 => Normal (setAudio (Some a1) st))
        | None => Normal st
        end) (fun st1 =>
  (* Update history *)
  Normal (st1,
          [mkProgressUpdate (HistoryItem.id (activeItem props)) (currentTime st)
             (repeatMode st) (playbackRate st)])).

(** The mount: the first render with the element [a] attached to the
    ref, then the two effects in order.  Both close over the values of
    that render; the ref is shared, so the second effect finds the element
    as the first has left it. *)
Definition mount (rateSupported : float -> bool) (props : Props) (a : Audio.t)
  : completion (State * list ProgressUpdate) :=
  let st0 := setAudio (Some a) (init props) in
  bind (restoreOnLoad rateSupported props st0) (fun st1 =>
  bind (playbackRateEffect rateSupported props (setAudio (audioRef st1) st0))
    (fun '(st2, updates) =>
  Normal (setAudio (audioRef st2) st1, updates))).

(** The [onClick] of an entry of the speed menu, and the effect that the
    next render runs when the rate is another one ([Object.is]). *)
Definition speedMenu_onClick (rateSupported : float -> bool) (props : Props)
  (st : State) (speed : float) : completion (State * list ProgressUpdate) :=
  let st1 := setShowSpeedMenu false (setPlaybackRate speed st) in
  if PrimFloat.Leibniz.eqb (playbackRate st) speed then Normal (st1, [])
  else playbackRateEffect rateSupported props st1.

End Player.

(** ** [App]: the history store and the generation request *)

Module App.

Record State : Type := mkState {
  history : list HistoryItem.t;
  activeItem : option HistoryItem.t;
  audioUrl : option jsstring;
  isLoading : bool;
  inputText : jsstring;
  isSidebarOpen : bool;
  error : option jsstring
}.

Definition setHistory (v : list HistoryItem.t) (st : State) : State :=
  mkState v (activeItem st) (audioUrl st) (isLoading st) (inputText st)
    (isSidebarOpen st) (error st).

Definition setActiveItem (v : option HistoryItem.t) (st : State) : State :=
  mkState (history st) v (audioUrl st) (isLoading st) (inputText st)
    (isSidebarOpen st) (error st).

Definition setAudioUrl (v : option jsstring) (st : State) : State :=
  mkState (history st) (activeItem st) v (isLoading st) (inputText st)
    (isSidebarOpen st) (error st).

Definition setIsLoading (v : bool) (st : State) : State :=
  mkState (history st) (activeItem st) (audioUrl st) v (inputText st)
    (isSidebarOpen st) (error st).

Definition setError (v : option jsstring) (st : State) : State :=
  mkState (history st) (activeItem st) (audioUrl st) (isLoading st)
    (inputText st) (isSidebarOpen st) v.

(** The error paragraph of the input view: the view is rendered while
    no item is active, the paragraph when [error] is set. *)
Definition renderedError (st : State) : option jsstring :=
  match activeItem st with
  | None => error st
  | Some _ => None
  end.

(** *** The two outbound operations *)

(** What the speech request comes back with: an exception of the
    provider call or of the decoding, a response without parts, a part
    without audio data, or the decoded PCM bytes. *)
Inductive SpeechResponse : Type :=
  | SpeechError (message : option jsstring)
  | SpeechNoContent
  | SpeechNoAudio
  | SpeechAudio (bytes : list Byte.byte).

(** [generateJapaneseSpeech]: the [catch] logs and rethrows. *)
Definition generateJapaneseSpeech (createObjectURL : Wav.ArrayBuffer -> jsstring)
  (response : SpeechResponse) : PromiseSettledResult jsstring :=
  match response with
  | SpeechError message => rejected message
  | SpeechNoContent => rejected (Some (lit "No content generated"))
  | SpeechNoAudio => rejected (Some (lit "No audio data found in response"))
  | SpeechAudio bytes =>
      match Wav.pcmToWav bytes Wav.SAMPLE_RATE with
      | Some wavBuffer => fulfilled (createObjectURL wavBuffer)
      | None => rejected None
      end
  end.

(** What [JSON.parse(jsonStr) as Token[]] evaluates to.  The cast
    checks nothing, so the value is whatever JSON the response text
    spells.  Two kinds of value are followed here: the array of tokens
    that the cast promises, and [null]. *)
Inductive Parsed : Type :=
  | JsonTokens (tokens : list Token.t)
  | JsonNull.

(** [analyzeJapaneseText]: [None] is an exception anywhere in the [try]
    (the provider call, [JSON.parse] on a text that is not JSON), and the
    [catch] returns []; a text that parses is returned as parsed. *)
Definition analyzeJapaneseText (response : option Parsed)
  : PromiseSettledResult Parsed :=
  match response with
  | Some value => fulfilled value
  | None => fulfilled (JsonTokens [])
  end.

(** *** The history store *)

(** Lines 59-84 of [handleGenerate]: update the item that has this text
    and bump it to the top, or create a new one.  [now] is [Date.now()],
    [uuid] is [uuidv4()].  Returns [newItem] and the list handed to
    [setHistory]. *)
Definition createOrUpdate (history : list HistoryItem.t)
  (inputText : jsstring) (tokens : list Token.t) (now : Z) (uuid : jsstring)
  : HistoryItem.t * list HistoryItem.t :=
  match list_find (fun h => HistoryItem.text h = inputText) history with
  | Some (existingIndex, existing) =>
      let newItem :=
        HistoryItem.mk (HistoryItem.id existing) (HistoryItem.text existing)
          (if 0 <? Z.of_nat (length tokens) then Some tokens
           else HistoryItem.tokens existing)
          now
          (HistoryItem.lastPosition existing)
          (HistoryItem.repeatMode existing)
          (HistoryItem.playbackRate existing) in
      (newItem, newItem :: delete existingIndex history)
  | None =>
      let newItem :=
        HistoryItem.mk uuid inputText (Some tokens) now 0 RepeatMode.ONCE
          (Some 1%float) in
      (newItem, newItem :: history)
  end.

(** The same lines on the value that the analysis has returned.  On an
    array they are [createOrUpdate].  On [null] the test [tokens.length >
    0] of the branch for an existing item throws a [TypeError]; the other
    branch does not look at [tokens] and stores it in the new item, where
    it is as falsy as a missing field. *)
Definition createOrUpdate_unchecked (history : list HistoryItem.t)
  (inputText : jsstring) (tokens : Parsed) (now : Z) (uuid : jsstring)
  : completion (HistoryItem.t * list HistoryItem.t) :=
  match tokens with
  | JsonTokens tokens =>
      Normal (createOrUpdate history inputText tokens now uuid)
  | JsonNull =>
      match list_find (fun h => HistoryItem.text h = inputText) history with
      | Some _ => Throw TypeError
      | None =>
          let newItem :=
            HistoryItem.mk uuid inputText None now 0 RepeatMode.ONCE
              (Some 1%float) in
          Normal (newItem, newItem :: history)
      end
  end.

(** The updater that [handleUpdateProgress] hands to [setHistory]. *)
Definition updateProgress (id : jsstring) (progress : float) (repeatMode : Z)
  (playbackRate : float) (prev : list HistoryItem.t) : list HistoryItem.t :=
  map (fun item =>
         if decide (HistoryItem.id item = id)
         then HistoryItem.mk (HistoryItem.id item) (HistoryItem.text item)
                (HistoryItem.tokens item) (HistoryItem.createdAt item)
                progress repeatMode (Some playbackRate)
         else item) prev.

Definition handleUpdateProgress (id : jsstring) (progress : float)
  (repeatMode : Z) (playbackRate : float) (st : State) : State :=
  setHistory (updateProgress id progress repeatMode playbackRate (history st))
    st.

Definition handleBackToInput (st : State) : State :=
  setAudioUrl None (setActiveItem None st).

(** The updater that [handleDeleteHistory] hands to [setHistory]. *)
Definition deleteHistory (id : jsstring) (prev : list HistoryItem.t)
  : list HistoryItem.t :=
  filter (fun item => HistoryItem.id item <> id) prev.

Definition handleDeleteHistory (id : jsstring) (st : State) : State :=
  let st1 := setHistory (deleteHistory id (history st)) st in
  match activeItem st with
  | Some item =>
      if decide (HistoryItem.id item = id) then handleBackToInput st1
      else st1
  | None => st1
  end.

(** The stores that the program can hold: the empty one, and what the
    three mutations make of a store it can hold. *)
Inductive reachable : list HistoryItem.t -> Prop :=
  | reachable_nil : reachable []
  | reachable_createOrUpdate h inputText tokens now uuid :
      reachable h ->
      reachable (createOrUpdate h inputText tokens now uuid).2
  | reachable_createOrUpdate_null h inputText now uuid r :
      reachable h ->
      createOrUpdate_unchecked h inputText JsonNull now uuid = Normal r ->
      reachable r.2
  | reachable_updateProgress h id progress repeatMode playbackRate :
      reachable h ->
      reachable (updateProgress id progress repeatMode playbackRate h)
  | reachable_deleteHistory h id :
      reachable h -> reachable (deleteHistory id h).

(** *** [handleGenerate] *)

(** Up to the [await]: [None] when the guard returns at once. *)
Definition handleGenerate_start (st : State) : option State :=
  if falsy (trim (inputText st)) then None
  else Some (setAudioUrl None (setError None (setIsLoading true st))).

(** The [catch] and the [finally]: [message] is [err.message]. *)
Definition handleGenerate_catch (message : jsstring) (st : State) : State :=
  setIsLoading false
    (setError
       (Some (or_else (Some message)
                (lit "Failed to generate speech. Please check your API key.")))
       st).

(** From the [await] on.  [inputText] and [history] are the values the
    call closed over; [st] is the state when both promises have settled.
    A rejected speech promise throws into the [catch], and so does the
    [TypeError] of lines 59-84, whose message, the wording of the engine,
    is [typeErrorMessage]. *)
Definition handleGenerate_settled (inputText : jsstring)
  (history : list HistoryItem.t) (st : State)
  (audioResult : PromiseSettledResult jsstring)
  (tokensResult : PromiseSettledResult Parsed)
  (typeErrorMessage : jsstring) (now : Z) (uuid : jsstring) : State :=
  match audioResult with
  | rejected message =>
      handleGenerate_catch (or_else message (lit "Failed to generate speech"))
        st
  | fulfilled url =>
      let tokens := match tokensResult with
                    | fulfilled value => value
                    | rejected _ => JsonTokens []
                    end in
      match createOrUpdate_unchecked history inputText tokens now uuid with
      | Normal (newItem, newHist) =>
          setIsLoading false
            (setAudioUrl (Some url) (setActiveItem (Some newItem)
                                       (setHistory newHist st)))
      | Throw _ => handleGenerate_catch typeErrorMessage st
      end
  end.

Definition handleGenerate (st : State)
  (audioResult : PromiseSettledResult jsstring)
  (tokensResult : PromiseSettledResult Parsed)
  (typeErrorMessage : jsstring) (now : Z) (uuid : jsstring) : State :=
  match handleGenerate_start st with
  | None => st
  | Some st1 =>
      handleGenerate_settled (inputText st) (history st) st1
        audioResult tokensResult typeErrorMessage now uuid
  end.

(** *** Selecting an item, leaving the player, and the player's reports *)

Definition setInputText (v : jsstring) (st : State) : State :=
  mkState (history st) (activeItem st) (audioUrl st) (isLoading st) v
    (isSidebarOpen st) (error st).

Definition setIsSidebarOpen (v : bool) (st : State) : State :=
  mkState (history st) (activeItem st) (audioUrl st) (isLoading st)
    (inputText st) v (error st).

(** [handleSelectHistory], up to the [await] and from it on. *)
Definition handleSelectHistory_start (item : HistoryItem.t) (st : State)
  : State :=
  setIsLoading true
    (setIsSidebarOpen false
       (setError None
          (setInputText (HistoryItem.text item)
             (setActiveItem (Some item) st)))).

Definition handleSelectHistory_settled (st : State)
  (audioResult : PromiseSettledResult jsstring) : State :=
  setIsLoading false
    (match audioResult with
     | fulfilled url => setAudioUrl (Some url) st
     | rejected _ =>
         setError (Some (lit "Could not restore audio. Try generating again."))
           st
     end).

Definition handleSelectHistory (item : HistoryItem.t) (st : State)
  (audioResult : PromiseSettledResult jsstring) : State :=
  handleSelectHistory_settled (handleSelectHistory_start item st) audioResult.

Definition clearInput (st : State) : State :=
  setInputText [] (handleBackToInput st).

(** [onUpdateProgress={handleUpdateProgress}]: one report of the player,
    and a sequence of them in order. *)
Definition onUpdateProgress (u : Player.ProgressUpdate) (st : State) : State :=
  handleUpdateProgress (Player.pu_id u) (Player.pu_progress u)
    (Player.pu_repeatMode u) (Player.pu_playbackRate u) st.

Definition onUpdateProgress_all (updates : list Player.ProgressUpdate)
  (st : State) : State :=
  fold_left (fun acc u => onUpdateProgress u acc) updates st.

End App.

(** ** [services/geminiService]: decoding the two responses *)

Module GeminiService.

(** The loop after [atob]: [bytes[i] = binaryString.charCodeAt(i)], each
    stored in a [Uint8Array] element. *)
Definition bytesOfBinaryString (binaryString : jsstring) : list Byte.byte :=
  map (fun c => Wav.byte_of (Z.of_N c) 0) binaryString.

(** [s] without the prefix [p], when it starts with it. *)
Fixpoint dropPrefix (p s : jsstring) : option jsstring :=
  match p, s with
  | [], _ => Some s
  | _ :: _, [] => None
  | a :: p', b :: s' => if (a =? b)%N then dropPrefix p' s' else None
  end.

(** [jsonStr.replace(/^```json\s*/, "")]. *)
Definition stripFenceOpen (jsonStr : jsstring) : jsstring :=
  match dropPrefix (lit "```json") jsonStr with
  | Some rest => trimStart rest
  | None => jsonStr
  end.

(** [jsonStr.replace(/\s*```$/, "")]: the match is the closing fence at
    the very end with all the white space in front of it. *)
Definition stripFenceClose (jsonStr : jsstring) : jsstring :=
  match dropPrefix (rev (lit "```")) (rev jsonStr) with
  | Some rest => rev (trimStart rest)
  | None => jsonStr
  end.

(** What [analyzeJapaneseText] hands to [JSON.parse]: [response.text ||
    "[]"] without the markdown fence. *)
Definition jsonStr (responseText : option jsstring) : jsstring :=
  stripFenceClose (stripFenceOpen (or_else responseText (lit "[]"))).

End GeminiService.

(** ** Vocabulary of the properties *)

(** [segs] tile the characters from [from] up to [upto], in order. *)
Fixpoint tiles (segs : list Segment.t) (from upto : Z) : Prop :=
  match segs with
  | [] => from = upto
  | s :: rest =>
      Segment.startCharIndex s = from
      /\ tiles rest (Segment.endCharIndex s) upto
  end.

(** [Math.round x] as an integer: the nearest integer, a tie going up;
    [None] for NaN and the infinities.  Exact: a finite float is
    [v * 2^e] with [v] an integer, and for [e < 0] its rounding is
    [floor ((2 * v + 2^(-e)) / 2^(1 - e))]. *)
Definition roundZ (x : float) : option Z :=
  match Prim2SF x with
  | S754_zero _ => Some 0
  | S754_finite s m e =>
      let v := if s then Z.neg m else Z.pos m in
      Some (if 0 <=? e then Z.shiftl v e
            else Z.shiftl (2 * v + 2 ^ (- e)) (e - 1))
  | S754_infinity _ | S754_nan => None
  end.

(** Following the specification's words, not the source: the active
    segment is the one whose range contains
    [round((currentTime / duration) * totalChars)]. *)
Definition spec_isSegmentActive (props : Player.Props) (st : Player.State)
  (seg : Segment.t) : bool :=
  if PrimFloat.eqb (Player.duration st) 0 then false
  else
    match roundZ (Player.currentTime st / Player.duration st
                  * Z2F (Player.totalChars props))%float with
    | Some r =>
        (Segment.startCharIndex seg <=? r) && (r <? Segment.endCharIndex seg)
    | None => false
    end.

(** Playback advancing through the media times [times], one
    [timeupdate] event at each: the calls of [onUpdateProgress] that
    result, in order. *)
Fixpoint timeupdates (props : Player.Props) (st : Player.State)
  (times : list float) : list Player.ProgressUpdate :=
  match times with
  | [] => []
  | time :: later =>
      let st1 := Player.setAudio
                   (Audio.at_time time <$> Player.audioRef st) st in
      let '(st2, updates) := Player.handleTimeUpdate props st1 in
      updates ++ timeupdates props st2 later
  end.

(** ** Sample data *)

Module Sample.

(** A segmenter that makes every code unit a segment of its own. *)
Definition unitSegmenter : Player.Segmenter :=
  fun text =>
    imap (fun i c => SegmentData.mk [c] (Z.of_nat i) text
                       (negb (isWhiteSpace c))) text.

(** "東京です" with its analysis: 東京 (とうきょう), です. *)
Definition tokyo_text : jsstring := [26481; 20140; 12391; 12377]%N.

Definition tokyo_tokens : list Token.t :=
  [Token.mk [26481; 20140]%N (Some [12392; 12358; 12365; 12423; 12358]%N);
   Token.mk [12391; 12377]%N None].

Definition item (text : jsstring) (tokens : option (list Token.t))
  : HistoryItem.t :=
  HistoryItem.mk (lit "3f2b8c1e") text tokens 1700000000000 0
    RepeatMode.ONCE (Some 1%float).

Definition tokyo : HistoryItem.t := item tokyo_text (Some tokyo_tokens).

(** The same text after a failed analysis. *)
Definition tokyo_unanalyzed : HistoryItem.t := item tokyo_text (Some []).

(** A text of 100 characters in three tokens of 20, 10 and 70. *)
Definition hundred : HistoryItem.t :=
  item (replicate 100 12354%N)
    (Some [Token.mk (replicate 20 12354%N) None;
           Token.mk (replicate 10 12354%N) None;
           Token.mk (replicate 70 12354%N) None]).

(** The player on [activeItem], mounted, with metadata of an audio of
    [duration] seconds loaded, at media time [time]. *)
Definition props (activeItem : HistoryItem.t) : Player.Props :=
  Player.mkProps activeItem (Some (lit "blob:audio")).

Definition loaded (activeItem : HistoryItem.t) (duration time : float)
  : Player.State :=
  Player.setCurrentTime time
    (Player.handleLoadedMetadata
       (Player.setAudio (Some (Audio.mk time duration true 1))
          (Player.init (props activeItem)))).

(** A user agent that plays at the rates from 1/16 to 16. *)
Definition rateSupported (v : float) : bool :=
  PrimFloat.leb 0.0625 v && PrimFloat.leb v 16.

End Sample.

(* ===================================================================== *)
(** * Part II.  Properties                                                *)
(* ===================================================================== *)

(** ** The WAV encoder *)

Section WavEncoder.
Import Wav.

Lemma byte_val_byte_of (v k : Z) :
  0 <= k -> byte_val (byte_of v k) = (v / 2 ^ (8 * k)) mod 256.
Proof.
  intros Hk. unfold byte_val, byte_of.
  assert (E : Z.land (Z.shiftr v (8 * k)) 255 = (v / 2 ^ (8 * k)) mod 256).
  { rewrite Z.shiftr_div_pow2 by lia. change 255 with (Z.ones 8).
    now rewrite Z.land_ones by lia. }
  rewrite E. set (x := (v / 2 ^ (8 * k)) mod 256).
  assert (Hx : 0 <= x < 256) by (apply Z.mod_pos_bound; lia).
  destruct (Byte.of_N (Z.to_N x)) as [b|] eqn:Hb.
  - apply Byte.to_of_N in Hb. rewrite Hb. lia.
  - apply Byte.of_N_None_iff in Hb. lia.
Qed.

Lemma le_decode16 (v : Z) :
  byte_val (byte_of v 0) + 2 ^ 8 * byte_val (byte_of v 1) = v mod 2 ^ 16.
Proof.
  rewrite !byte_val_byte_of by lia. cbn [Z.mul Pos.mul].
  change (2 ^ 0) with 1. change (2 ^ 8) with 256.
  change (2 ^ 16) with 65536. rewrite Z.div_1_r.
  Z.div_mod_to_equations. lia.
Qed.

Lemma le_decode32 (v : Z) :
  byte_val (byte_of v 0) + 2 ^ 8 * byte_val (byte_of v 1)
  + 2 ^ 16 * byte_val (byte_of v 2) + 2 ^ 24 * byte_val (byte_of v 3)
  = v mod 2 ^ 32.
Proof.
  rewrite !byte_val_byte_of by lia. cbn [Z.mul Pos.mul].
  change (2 ^ 0) with 1. change (2 ^ 8) with 256.
  change (2 ^ 16) with 65536. change (2 ^ 24) with 16777216.
  change (2 ^ 32) with 4294967296. rewrite Z.div_1_r.
  Z.div_mod_to_equations. lia.
Qed.

(** The encoder fills the buffer front to back: each write lands right
    after what is already written and consumes the next zeroes. *)
Lemma store_next (pre bs : list Byte.byte) (n m off : nat) :
  off = length pre -> length bs = n ->
  store (pre ++ replicate (n + m) Byte.x00) off bs
  = Some ((pre ++ bs) ++ replicate m Byte.x00).
Proof.
  intros -> <-. unfold store.
  rewrite length_app, length_replicate.
  rewrite (leb_correct (length pre + length bs)) by lia.
  rewrite take_app_length, drop_app_add', replicate_add by reflexivity.
  rewrite drop_app_length' by now rewrite length_replicate.
  now rewrite <- app_assoc.
Qed.

Lemma writeString_next (s : jsstring) (pre : list Byte.byte) (n m off : nat) :
  off = length pre -> length s = n ->
  writeString (pre ++ replicate (n + m) Byte.x00) off s
  = Some ((pre ++ map (fun c => byte_of (Z.of_N c) 0) s)
          ++ replicate m Byte.x00).
Proof.
  revert pre n off. induction s as [|c r IH]; intros pre n off -> <-.
  - cbn [writeString map length Nat.add]. now rewrite app_nil_r.
  - cbn [writeString map length]. unfold setUint8.
    change (S (length r) + m)%nat with (1 + (length r + m))%nat.
    rewrite (store_next pre _ 1) by reflexivity.
    cbn [mbind option_bind].
    rewrite (IH (pre ++ [byte_of (Z.of_N c) 0]) (length r))
      by (rewrite ?length_app; cbn [length]; lia).
    now rewrite <- (app_assoc pre).
Qed.

Lemma pcmToWav_eq (pcmData : list Byte.byte) (sampleRate : Z) :
  pcmToWav pcmData sampleRate
  = Some (header sampleRate (Z.of_nat (length pcmData)) ++ pcmData).
Proof.
  unfold pcmToWav, new_ArrayBuffer, Uint8Array_set, setUint32, setUint16.
  generalize (Z.of_nat (length pcmData)); intros dataSize.
  rewrite <- (Nat.add_0_r (length pcmData)).
  change (44 + (length pcmData + 0))%nat
    with (4 + (4 + (4 + (4 + (4 + (2 + (2 + (4 + (4 + (2 + (2 + (4 + (4
          + (length pcmData + 0))))))))))))))%nat.
  rewrite <- (app_nil_l (replicate _ _)).
  repeat (first [ rewrite writeString_next by reflexivity
                | rewrite store_next by reflexivity ];
          cbn [mbind option_bind]).
  cbn [replicate]. unfold header, le32, le16, ascii_bytes.
  rewrite app_nil_r, app_nil_l. now rewrite <- !app_assoc.
Qed.

Lemma header_length (sampleRate dataSize : Z) :
  length (header sampleRate dataSize) = 44%nat.
Proof. reflexivity. Qed.

(** What a reader of the container finds, for any input: every field is
    the written value modulo the width of the field. *)
Lemma pcmToWav_fields (pcmData : list Byte.byte) (sampleRate : Z) :
  let dataSize := Z.of_nat (length pcmData) in
  exists wav,
    pcmToWav pcmData sampleRate = Some wav
    /\ length wav = (44 + length pcmData)%nat
    /\ take 4 wav = ascii_bytes "RIFF"
    /\ getUint32 wav 4 = Some ((36 + dataSize) mod 2 ^ 32)
    /\ take 4 (drop 8 wav) = ascii_bytes "WAVE"
    /\ take 4 (drop 12 wav) = ascii_bytes "fmt "
    /\ getUint32 wav 16 = Some 16
    /\ getUint16 wav 20 = Some 1
    /\ getUint16 wav 22 = Some 1
    /\ getUint32 wav 24 = Some (sampleRate mod 2 ^ 32)
    /\ getUint32 wav 28 = Some ((sampleRate * 1 * 16 / 8) mod 2 ^ 32)
    /\ getUint16 wav 32 = Some (1 * 16 / 8)
    /\ getUint16 wav 34 = Some 16
    /\ take 4 (drop 36 wav) = ascii_bytes "data"
    /\ getUint32 wav 40 = Some (dataSize mod 2 ^ 32)
    /\ drop 44 wav = pcmData.
Proof.
  intros dataSize. eexists. split; [apply pcmToWav_eq|]. fold dataSize.
  split. { now rewrite length_app, header_length. }
  repeat split; try reflexivity.
  all: cbn [getUint32 getUint16 header ascii_bytes le32 le16 lit map
            list_ascii_of_string app lookup list_lookup mbind option_bind
            Nat.add].
  all: try (rewrite le_decode32); try (rewrite le_decode16); try reflexivity.
Qed.

(** C2 (as amended).  For every PCM input of [L] bytes with
    [36 + L < 2^32] and every integer sample rate [0 <= R < 2^31], the
    encoder returns a buffer of exactly [44 + L] bytes whose little-endian
    header declares total size [36 + L] at offset 4, format tag 1, channel
    count 1, sample rate [R], byte rate [R * 1 * 16 / 8], block align
    [1 * 16 / 8], 16 bits per sample and data size [L] at offset 40, with
    the payload verbatim from offset 44; in particular for [L = 0]. *)
Theorem pcmToWav_container (pcmData : list Byte.byte) (sampleRate : Z) :
  let dataSize := Z.of_nat (length pcmData) in
  36 + dataSize < 2 ^ 32 ->
  0 <= sampleRate < 2 ^ 31 ->
  exists wav,
    pcmToWav pcmData sampleRate = Some wav
    /\ length wav = (44 + length pcmData)%nat
    /\ take 4 wav = ascii_bytes "RIFF"
    /\ getUint32 wav 4 = Some (36 + dataSize)
    /\ take 4 (drop 8 wav) = ascii_bytes "WAVE"
    /\ take 4 (drop 12 wav) = ascii_bytes "fmt "
    /\ getUint32 wav 16 = Some 16
    /\ getUint16 wav 20 = Some 1
    /\ getUint16 wav 22 = Some 1
    /\ getUint32 wav 24 = Some sampleRate
    /\ getUint32 wav 28 = Some (sampleRate * 1 * 16 / 8)
    /\ getUint16 wav 32 = Some (1 * 16 / 8)
    /\ getUint16 wav 34 = Some 16
    /\ take 4 (drop 36 wav) = ascii_bytes "data"
    /\ getUint32 wav 40 = Some dataSize
    /\ drop 44 wav = pcmData.
Proof.
  intros dataSize Hsize Hrate.
  destruct (pcmToWav_fields pcmData sampleRate)
    as (wav & Hwav & Hlen & Hriff & Htotal & Hwave & Hfmt & Hsub & Htag & Hch
        & Hsr & Hbr & Hba & Hbits & Hdata & Hds & Hpayload).
  fold dataSize in Htotal, Hds.
  exists wav. repeat split; try assumption.
  - rewrite Htotal, Z.mod_small by lia. reflexivity.
  - rewrite Hsr, Z.mod_small by lia. reflexivity.
  - rewrite Hbr, Z.mod_small; [reflexivity|].
    replace (sampleRate * 1 * 16) with (2 * sampleRate * 8) by lia.
    rewrite Z.div_mul by lia. lia.
  - rewrite Hds, Z.mod_small by lia. reflexivity.
Qed.

(** The empty input at the rate the program uses: a header alone, which
    declares no data. *)
Lemma pcmToWav_container_witness :
  exists wav,
    pcmToWav [] SAMPLE_RATE = Some wav
    /\ length wav = 44%nat
    /\ getUint32 wav 4 = Some 36
    /\ getUint32 wav 24 = Some 24000
    /\ getUint32 wav 28 = Some 48000
    /\ getUint32 wav 40 = Some 0
    /\ drop 44 wav = [].
Proof.
  destruct (pcmToWav_container [] SAMPLE_RATE)
    as (wav & Hwav & Hlen & _ & Htotal & _ & _ & _ & _ & _
        & Hsr & Hbr & _ & _ & _ & Hds & Hpayload).
  - cbn. lia.
  - unfold SAMPLE_RATE. lia.
  - exists wav. repeat split; assumption.
Defined.

(** C2, as stated, fails.  A sample rate of [2^32] does not fit the
    32-bit field: the header declares a sample rate of 0. *)
Lemma pcmToWav_sampleRate_wraps :
  exists wav,
    pcmToWav [] 4294967296 = Some wav
    /\ getUint32 wav 24 = Some 0
    /\ getUint32 wav 24 <> Some 4294967296.
Proof.
  eexists. split; [vm_compute; reflexivity|].
  split; [vm_compute; reflexivity | vm_compute; discriminate].
Qed.

End WavEncoder.

(** ** The segment mapper *)

Section Segments.
Import Player.

Lemma jslength_app (s1 s2 : jsstring) :
  jslength (s1 ++ s2) = jslength s1 + jslength s2.
Proof. unfold jslength. rewrite length_app. lia. Qed.

Lemma tokenSegments_tiles (tokens : list Token.t) (idx charIndex : Z) :
  tiles (tokenSegments tokens idx charIndex) charIndex
    (charIndex + jslength (concat (map Token.surface tokens)))
  /\ concat (map Segment.segment (tokenSegments tokens idx charIndex))
     = concat (map Token.surface tokens).
Proof.
  revert idx charIndex.
  induction tokens as [|token rest IH]; intros idx charIndex.
  - cbn. split; [unfold jslength; cbn; lia | reflexivity].
  - cbn [tokenSegments map concat tiles Segment.startCharIndex
         Segment.endCharIndex Segment.segment].
    destruct (IH (idx + 1) (charIndex + jslength (Token.surface token)))
      as [Htiles Htext].
    rewrite jslength_app, Z.add_assoc, Htext. auto.
Qed.

Lemma iteratorSegments_tiles (iterator : list SegmentData.t) (charIndex : Z) :
  tiles (iteratorSegments iterator charIndex) charIndex
    (charIndex + jslength (concat (map SegmentData.segment iterator)))
  /\ concat (map Segment.segment (iteratorSegments iterator charIndex))
     = concat (map SegmentData.segment iterator).
Proof.
  revert charIndex. induction iterator as [|seg rest IH]; intros charIndex.
  - cbn. split; [unfold jslength; cbn; lia | reflexivity].
  - cbn [iteratorSegments map concat tiles Segment.startCharIndex
         Segment.endCharIndex Segment.segment].
    destruct (IH (charIndex + jslength (SegmentData.segment seg)))
      as [Htiles Htext].
    rewrite jslength_app, Z.add_assoc, Htext. auto.
Qed.

(** A tiling, spelled out: where the first segment starts, how
    neighbours meet, where the last segment ends. *)
Lemma tiles_spelled_out (segs : list Segment.t) (from upto : Z) :
  tiles segs from upto ->
  (forall s, head segs = Some s -> Segment.startCharIndex s = from)
  /\ (forall (i : nat) s s',
        segs !! i = Some s -> segs !! S i = Some s' ->
        Segment.endCharIndex s = Segment.startCharIndex s')
  /\ (forall s, last segs = Some s -> Segment.endCharIndex s = upto).
Proof.
  revert from. induction segs as [|s0 rest IH]; intros from Htiles.
  - repeat split; intros; discriminate.
  - destruct Htiles as [Hstart Hrest].
    destruct (IH _ Hrest) as (Hhead & Hadj & Hlast).
    split; [intros s [= <-]; exact Hstart|]. split.
    + intros [|i] s s' Hs Hs'; cbn in Hs, Hs'.
      * injection Hs as <-. symmetry. apply Hhead.
        now destruct rest; [discriminate | injection Hs' as <-].
      * eapply Hadj; eassumption.
    + intros s Hs. destruct rest as [|s1 rest'].
      * cbn in Hs, Hrest. injection Hs as <-. exact Hrest.
      * apply Hlast. exact Hs.
Qed.

(** C1.  Whatever path [segments] takes (the stored tokens, the word
    segmenter of the platform, or the single segment), and given that the
    surfaces of the tokens (on the token path) and the segments of the
    platform segmenter (on the fallback path) concatenate to the text: the
    first segment starts at 0, each segment ends where the next one
    starts, the last one ends at the number of characters of the text, and
    the [segment] fields in order concatenate to the text. *)
Theorem segments_partition (Intl_Segmenter : option Segmenter)
  (activeItem : HistoryItem.t) :
  let text := HistoryItem.text activeItem in
  (forall tokens, HistoryItem.tokens activeItem = Some tokens ->
                  tokens <> [] ->
                  concat (map Token.surface tokens) = text) ->
  (forall segmenter, Intl_Segmenter = Some segmenter ->
                     concat (map SegmentData.segment (segmenter text)) = text) ->
  let segs := segments Intl_Segmenter activeItem in
  (forall s, head segs = Some s -> Segment.startCharIndex s = 0)
  /\ (forall (i : nat) s s',
        segs !! i = Some s -> segs !! S i = Some s' ->
        Segment.endCharIndex s = Segment.startCharIndex s')
  /\ (forall s, last segs = Some s -> Segment.endCharIndex s = jslength text)
  /\ concat (map Segment.segment segs) = text.
Proof.
  intros text Htokens Hsegmenter segs.
  assert (Hfallback :
    tiles (fallbackSegments Intl_Segmenter text) 0 (jslength text)
    /\ concat (map Segment.segment (fallbackSegments Intl_Segmenter text))
       = text).
  { unfold fallbackSegments. destruct text as [|c r] eqn:Htext.
    - cbn. auto.
    - cbn [falsy]. destruct Intl_Segmenter as [segmenter|].
      + specialize (Hsegmenter segmenter eq_refl).
        destruct (iteratorSegments_tiles (segmenter (c :: r)) 0) as [Ht Hc].
        rewrite Hsegmenter in Ht, Hc. auto.
      + cbn. rewrite app_nil_r. auto. }
  assert (Hsegs : tiles segs 0 (jslength text)
                  /\ concat (map Segment.segment segs) = text).
  { subst segs. unfold segments. fold text.
    destruct (HistoryItem.tokens activeItem) as [tokens|] eqn:Hsome;
      [|exact Hfallback].
    destruct tokens as [|token rest]; [exact Hfallback|].
    change (0 <? Z.of_nat (length (token :: rest)))
      with (0 <? Z.pos (Pos.of_succ_nat (length rest))).
    cbn [Z.ltb Z.compare].
    destruct (tokenSegments_tiles (token :: rest) 0 0) as [Ht Hc].
    rewrite (Htokens _ eq_refl) in Ht, Hc by discriminate. auto. }
  destruct Hsegs as [Ht Hc].
  destruct (tiles_spelled_out _ _ _ Ht) as (Hhead & Hadj & Hlast).
  auto.
Qed.

(** The three paths: the stored tokens; no tokens, with a segmenter;
    no tokens and no segmenter. *)
Lemma segments_partition_witness :
  (let segs := segments None Sample.tokyo in
   concat (map Segment.segment segs) = Sample.tokyo_text
   /\ Segment.startCharIndex <$> head segs = Some 0
   /\ Segment.endCharIndex <$> last segs = Some 4)
  /\ (let segs := segments (Some Sample.unitSegmenter) Sample.tokyo_unanalyzed in
      concat (map Segment.segment segs) = Sample.tokyo_text
      /\ Segment.startCharIndex <$> head segs = Some 0
      /\ Segment.endCharIndex <$> last segs = Some 4)
  /\ (let segs := segments None Sample.tokyo_unanalyzed in
      concat (map Segment.segment segs) = Sample.tokyo_text
      /\ Segment.startCharIndex <$> head segs = Some 0
      /\ Segment.endCharIndex <$> last segs = Some 4).
Proof.
  split; [|split].
  - destruct (segments_partition None Sample.tokyo)
      as (Hhead & _ & Hlast & Htext).
    + intros tokens [= <-] _. reflexivity.
    + intros segmenter [=].
    + split; [exact Htext|].
      split; [exact (f_equal Some (Hhead _ eq_refl))
             | exact (f_equal Some (Hlast _ eq_refl))].
  - destruct (segments_partition (Some Sample.unitSegmenter)
                Sample.tokyo_unanalyzed) as (Hhead & _ & Hlast & Htext).
    + intros tokens [= <-] Hne. now destruct Hne.
    + intros segmenter [= <-]. reflexivity.
    + split; [exact Htext|].
      split; [exact (f_equal Some (Hhead _ eq_refl))
             | exact (f_equal Some (Hlast _ eq_refl))].
  - destruct (segments_partition None Sample.tokyo_unanalyzed)
      as (Hhead & _ & Hlast & Htext).
    + intros tokens [= <-] Hne. now destruct Hne.
    + intros segmenter [=].
    + split; [exact Htext|].
      split; [exact (f_equal Some (Hhead _ eq_refl))
             | exact (f_equal Some (Hlast _ eq_refl))].
Defined.

End Segments.

(** ** The history store *)

Section History.
Import App.

Implicit Types (h : list HistoryItem.t) (inputText : jsstring).

(** The two branches of [createOrUpdate], by what [findIndex] finds. *)
Lemma createOrUpdate_existing h inputText tokens now uuid i existing :
  list_find (fun x => HistoryItem.text x = inputText) h = Some (i, existing) ->
  createOrUpdate h inputText tokens now uuid
  = let newItem :=
      HistoryItem.mk (HistoryItem.id existing) (HistoryItem.text existing)
        (if 0 <? Z.of_nat (length tokens) then Some tokens
         else HistoryItem.tokens existing)
        now (HistoryItem.lastPosition existing)
        (HistoryItem.repeatMode existing)
        (HistoryItem.playbackRate existing) in
    (newItem, newItem :: delete i h).
Proof. intros Hfind. unfold createOrUpdate. now rewrite Hfind. Qed.

Lemma createOrUpdate_new h inputText tokens now uuid :
  list_find (fun x => HistoryItem.text x = inputText) h = None ->
  createOrUpdate h inputText tokens now uuid
  = let newItem :=
      HistoryItem.mk uuid inputText (Some tokens) now 0 RepeatMode.ONCE
        (Some 1%float) in
    (newItem, newItem :: h).
Proof. intros Hfind. unfold createOrUpdate. now rewrite Hfind. Qed.

(** In a list without duplicates, deleting the one occurrence of an
    element leaves none. *)
Lemma NoDup_delete_not_elem_of {A} (l : list A) (i : nat) (x : A) :
  NoDup l -> l !! i = Some x -> x ∉ delete i l.
Proof.
  intros Hnd Hi. rewrite delete_take_drop.
  rewrite <- (take_drop_middle l i x Hi) in Hnd.
  apply NoDup_app in Hnd as (_ & Hdisj & Hnd).
  apply NoDup_cons in Hnd as [Hx _].
  intros [Hin|Hin]%elem_of_app; [|contradiction].
  apply (Hdisj x Hin). left.
Qed.

(** No two items of the store have the same text: the three mutations
    keep it so. *)
Lemma createOrUpdate_NoDup h inputText tokens now uuid :
  NoDup (HistoryItem.text <$> h) ->
  NoDup (HistoryItem.text <$> (createOrUpdate h inputText tokens now uuid).2).
Proof.
  intros Hnd.
  destruct (list_find (fun x => HistoryItem.text x = inputText) h)
    as [[i existing]|] eqn:Hfind.
  - rewrite (createOrUpdate_existing _ _ _ _ _ _ _ Hfind). cbn.
    apply list_find_Some in Hfind as (Hi & _ & _).
    rewrite list_fmap_delete. apply NoDup_cons. split.
    + apply NoDup_delete_not_elem_of; [exact Hnd|].
      now rewrite list_lookup_fmap, Hi.
    + eapply sublist_NoDup; [exact Hnd | apply sublist_delete].
  - rewrite (createOrUpdate_new _ _ _ _ _ Hfind). cbn.
    apply list_find_None in Hfind. apply NoDup_cons. split; [|exact Hnd].
    intros (x & Hx & Hin)%list_elem_of_fmap.
    rewrite Forall_forall in Hfind. now apply (Hfind x Hin).
Qed.

Lemma updateProgress_texts id progress repeatMode playbackRate h :
  HistoryItem.text <$> updateProgress id progress repeatMode playbackRate h
  = HistoryItem.text <$> h.
Proof.
  unfold updateProgress. induction h as [|x h IH]; [reflexivity|].
  cbn. rewrite IH. now destruct (decide (HistoryItem.id x = id)).
Qed.

Lemma deleteHistory_NoDup id h :
  NoDup (HistoryItem.text <$> h) ->
  NoDup (HistoryItem.text <$> deleteHistory id h).
Proof.
  unfold deleteHistory. induction h as [|x h IH]; intros Hnd; [exact Hnd|].
  cbn in Hnd. apply NoDup_cons in Hnd as [Hx Hnd].
  rewrite filter_cons. destruct (decide (HistoryItem.id x <> id)); [|auto].
  cbn. apply NoDup_cons. split; [|auto].
  intros (y & Hy & Hin)%list_elem_of_fmap.
  apply list_elem_of_filter in Hin as [_ Hin].
  apply Hx, list_elem_of_fmap. eauto.
Qed.

(** On [null] the lines commit an item only for a text that is new. *)
Lemma createOrUpdate_unchecked_null h inputText now uuid r :
  createOrUpdate_unchecked h inputText JsonNull now uuid = Normal r ->
  list_find (fun x => HistoryItem.text x = inputText) h = None
  /\ r = (HistoryItem.mk uuid inputText None now 0 RepeatMode.ONCE
            (Some 1%float),
          HistoryItem.mk uuid inputText None now 0 RepeatMode.ONCE
            (Some 1%float) :: h).
Proof.
  unfold createOrUpdate_unchecked.
  destruct (list_find (fun x => HistoryItem.text x = inputText) h);
    [discriminate|].
  intros [= <-]. split; reflexivity.
Qed.

Lemma reachable_NoDup h :
  reachable h -> NoDup (HistoryItem.text <$> h).
Proof.
  induction 1 as [| h inputText tokens now uuid _ IH
                  | h inputText now uuid r _ IH Hr
                  | h id progress repeatMode playbackRate _ IH
                  | h id _ IH].
  - constructor.
  - now apply createOrUpdate_NoDup.
  - apply createOrUpdate_unchecked_null in Hr as [Hfind ->]. cbn.
    apply list_find_None in Hfind. apply NoDup_cons. split; [|exact IH].
    intros (x & Hx & Hin)%list_elem_of_fmap.
    rewrite Forall_forall in Hfind. now apply (Hfind x Hin).
  - now rewrite updateProgress_texts.
  - now apply deleteHistory_NoDup.
Qed.

Lemma filter_none {A} (P : A -> Prop) `{!forall x, Decision (P x)}
  (l : list A) :
  (forall x, x ∈ l -> ~ P x) -> filter P l = [].
Proof.
  induction l as [|x l IH]; intros Hnone; [reflexivity|].
  rewrite filter_cons_False by (apply Hnone; left).
  apply IH. intros y Hy. apply Hnone. now right.
Qed.

(** Where at most one element satisfies [P], two positions that do are
    the same position. *)
Lemma at_most_one_lookup {A} (P : A -> Prop) `{!forall x, Decision (P x)}
  (l : list A) (i j : nat) (x y : A) :
  (length (filter P l) <= 1)%nat ->
  l !! i = Some x -> P x -> l !! j = Some y -> P y -> i = j.
Proof.
  assert (Hpos : forall (k : list A) z, z ∈ k -> P z ->
                                        (0 < length (filter P k))%nat).
  { intros k z Hz HP.
    assert (Hin : z ∈ filter P k) by now apply list_elem_of_filter.
    destruct (filter P k); [inversion Hin | cbn; lia]. }
  revert i j. induction l as [|a l IH]; intros i j Hone Hi Px Hj Py;
    [discriminate|].
  rewrite filter_cons in Hone.
  destruct i as [|i], j as [|j]; cbn in Hi, Hj.
  - reflexivity.
  - injection Hi as ->. rewrite decide_True in Hone by exact Px.
    apply list_elem_of_lookup_2 in Hj. specialize (Hpos l y Hj Py).
    cbn in Hone. lia.
  - injection Hj as ->. rewrite decide_True in Hone by exact Py.
    apply list_elem_of_lookup_2 in Hi. specialize (Hpos l x Hi Px).
    cbn in Hone. lia.
  - f_equal. apply IH; try assumption.
    destruct (decide (P a)); [cbn in Hone; lia | exact Hone].
Qed.

Lemma at_most_one_delete {A} (P : A -> Prop) `{!forall x, Decision (P x)}
  (l : list A) (i : nat) (x : A) :
  (length (filter P l) <= 1)%nat -> l !! i = Some x -> P x ->
  filter P (delete i l) = [].
Proof.
  intros Hone Hi Px. apply filter_none. intros y Hy Py.
  apply list_elem_of_lookup in Hy as [j Hj].
  destruct (decide (j < i)%nat) as [Hlt|Hge].
  - rewrite list_lookup_delete_lt in Hj by exact Hlt.
    pose proof (at_most_one_lookup P l i j x y Hone Hi Px Hj Py). lia.
  - rewrite list_lookup_delete_ge in Hj by lia.
    pose proof (at_most_one_lookup P l i (S j) x y Hone Hi Px Hj Py). lia.
Qed.

(** On a store the program can hold, every text is the text of at most
    one item. *)
Lemma NoDup_at_most_one h inputText :
  NoDup (HistoryItem.text <$> h) ->
  (length (filter (fun x => HistoryItem.text x = inputText) h) <= 1)%nat.
Proof.
  induction h as [|x h IH]; intros Hnd; [cbn; lia|].
  cbn in Hnd. apply NoDup_cons in Hnd as [Hx Hnd].
  rewrite filter_cons.
  destruct (decide (HistoryItem.text x = inputText)) as [Htext|]; [|auto].
  rewrite filter_none; [cbn; lia|].
  intros y Hy Hy'. apply Hx, list_elem_of_fmap. exists y. split; congruence.
Qed.

Lemma reachable_at_most_one h inputText :
  reachable h ->
  (length (filter (fun x => HistoryItem.text x = inputText) h) <= 1)%nat.
Proof. intros Hr. now apply NoDup_at_most_one, reachable_NoDup. Qed.

(** C3 (as amended).  On a store in which at most one item has the
    submitted text (every store that the three mutations build from the
    empty one, see [reachable_at_most_one]): when an item with that text
    exists, [createOrUpdate] leaves exactly one item with that text, at
    the front, its [createdAt] the time of this call, its tokens the new
    ones when there are any and the ones it had otherwise; when none
    exists, a new item is prepended, with the generated id,
    [lastPosition = 0], [repeatMode = 1] and [playbackRate = 1.0]. *)
Theorem createOrUpdate_spec h inputText tokens now uuid :
  (length (filter (fun x => HistoryItem.text x = inputText) h) <= 1)%nat ->
  let newItem := (createOrUpdate h inputText tokens now uuid).1 in
  let h' := (createOrUpdate h inputText tokens now uuid).2 in
  head h' = Some newItem
  /\ HistoryItem.text newItem = inputText
  /\ HistoryItem.createdAt newItem = now
  /\ length (filter (fun x => HistoryItem.text x = inputText) h') = 1%nat
  /\ (forall i existing,
        h !! i = Some existing -> HistoryItem.text existing = inputText ->
        HistoryItem.tokens newItem
        = (if 0 <? Z.of_nat (length tokens) then Some tokens
           else HistoryItem.tokens existing)
        /\ h' = newItem :: delete i h)
  /\ ((forall x, x ∈ h -> HistoryItem.text x <> inputText) ->
        HistoryItem.id newItem = uuid
        /\ HistoryItem.lastPosition newItem = 0%float
        /\ HistoryItem.repeatMode newItem = 1
        /\ HistoryItem.playbackRate newItem = Some 1%float
        /\ h' = newItem :: h).
Proof.
  intros Hone newItem h'. subst newItem h'.
  destruct (list_find (fun x => HistoryItem.text x = inputText) h)
    as [[i0 existing0]|] eqn:Hfind.
  - rewrite (createOrUpdate_existing _ _ _ _ _ _ _ Hfind).
    cbn [fst snd head HistoryItem.text HistoryItem.createdAt
         HistoryItem.tokens].
    apply list_find_Some in Hfind as (Hi0 & Htext0 & _).
    split; [reflexivity|]. split; [exact Htext0|]. split; [reflexivity|].
    split; [|split].
    + rewrite filter_cons_True by exact Htext0. cbn [length]. f_equal.
      now rewrite (at_most_one_delete _ h i0 existing0).
    + intros i existing Hi Htext.
      assert (i = i0) as ->
        by exact (at_most_one_lookup _ h i i0 _ _ Hone Hi Htext Hi0 Htext0).
      rewrite Hi in Hi0. injection Hi0 as ->. auto.
    + intros Hnone. exfalso.
      apply (Hnone existing0); [|exact Htext0].
      eapply list_elem_of_lookup_2. exact Hi0.
  - rewrite (createOrUpdate_new _ _ _ _ _ Hfind).
    cbn [fst snd head HistoryItem.text HistoryItem.createdAt
         HistoryItem.tokens].
    apply list_find_None in Hfind. rewrite Forall_forall in Hfind.
    split; [reflexivity|]. split; [reflexivity|]. split; [reflexivity|].
    split; [|split].
    + rewrite filter_cons_True by reflexivity. cbn [length]. f_equal.
      now rewrite filter_none.
    + intros i existing Hi Htext. exfalso.
      apply (Hfind existing); [|exact Htext].
      eapply list_elem_of_lookup_2. exact Hi.
    + intros _. repeat split.
Qed.

(** C10.  When an item with the submitted text exists, [createOrUpdate]
    takes one such item out of its place and puts it at the front with its
    [id], [text], [lastPosition], [repeatMode] and [playbackRate] as they
    were; it keeps its tokens too when the new analysis is empty. *)
Theorem createOrUpdate_keeps_settings h inputText tokens now uuid :
  (exists x, x ∈ h /\ HistoryItem.text x = inputText) ->
  let newItem := (createOrUpdate h inputText tokens now uuid).1 in
  let h' := (createOrUpdate h inputText tokens now uuid).2 in
  exists i existing,
    h !! i = Some existing
    /\ HistoryItem.text existing = inputText
    /\ HistoryItem.id newItem = HistoryItem.id existing
    /\ HistoryItem.text newItem = HistoryItem.text existing
    /\ HistoryItem.lastPosition newItem = HistoryItem.lastPosition existing
    /\ HistoryItem.repeatMode newItem = HistoryItem.repeatMode existing
    /\ HistoryItem.playbackRate newItem = HistoryItem.playbackRate existing
    /\ (tokens = [] ->
        HistoryItem.tokens newItem = HistoryItem.tokens existing)
    /\ h' = newItem :: delete i h.
Proof.
  intros (x & Hin & Htext) newItem h'. subst newItem h'.
  destruct (list_find_elem_of (fun y => HistoryItem.text y = inputText)
              h x Hin Htext) as [[i existing] Hfind].
  rewrite (createOrUpdate_existing _ _ _ _ _ _ _ Hfind). cbn.
  apply list_find_Some in Hfind as (Hi & Htext' & _).
  exists i, existing. repeat split; try assumption.
  now intros ->.
Qed.

(** The same text submitted twice, first without and then with an
    analysis. *)
Lemma createOrUpdate_spec_witness :
  let h1 := (createOrUpdate [] Sample.tokyo_text [] 1700000000000
               (lit "id-1")).2 in
  let r := createOrUpdate h1 Sample.tokyo_text Sample.tokyo_tokens
             1700000060000 (lit "id-2") in
  head r.2 = Some r.1
  /\ HistoryItem.createdAt r.1 = 1700000060000
  /\ length (filter (fun x => HistoryItem.text x = Sample.tokyo_text) r.2)
     = 1%nat
  /\ HistoryItem.tokens r.1 = Some Sample.tokyo_tokens
  /\ r.2 = r.1 :: delete 0%nat h1.
Proof.
  intros h1 r.
  destruct (createOrUpdate_spec h1 Sample.tokyo_text Sample.tokyo_tokens
              1700000060000 (lit "id-2"))
    as (Hhead & _ & Hcreated & Hone & Hexisting & _).
  - vm_compute. lia.
  - destruct (Hexisting 0%nat
                (HistoryItem.mk (lit "id-1") Sample.tokyo_text (Some [])
                   1700000000000 0 1 (Some 1%float)) eq_refl eq_refl)
      as [Htokens Hfront].
    repeat split; assumption.
Defined.

(** C3, as stated, fails on a list in which two items have the
    submitted text already: the first is updated and moved to the front,
    the second stays, and two items have that text afterwards. *)
Lemma createOrUpdate_duplicates_remain :
  let a := HistoryItem.mk (lit "id-1") Sample.tokyo_text None
             1700000000000 0 1 (Some 1%float) in
  let b := HistoryItem.mk (lit "id-2") Sample.tokyo_text None
             1700000030000 0 1 (Some 1%float) in
  let r := createOrUpdate [a; b] Sample.tokyo_text Sample.tokyo_tokens
             1700000060000 (lit "id-3") in
  (exists x, x ∈ [a; b] /\ HistoryItem.text x = Sample.tokyo_text)
  /\ r.2 = [r.1; b]
  /\ length (filter (fun x => HistoryItem.text x = Sample.tokyo_text) r.2)
     = 2%nat
  /\ length (filter (fun x => HistoryItem.text x = Sample.tokyo_text) r.2)
     <> 1%nat.
Proof.
  intros a b r. split; [exists a; split; [left | reflexivity]|].
  split; [reflexivity|]. split; [reflexivity | discriminate].
Qed.

Lemma createOrUpdate_keeps_settings_witness :
  let existing := HistoryItem.mk (lit "id-1") Sample.tokyo_text
                    (Some Sample.tokyo_tokens) 1700000000000 12.5 5
                    (Some 1.5%float) in
  let r := createOrUpdate [Sample.hundred; existing] Sample.tokyo_text []
             1700000060000 (lit "id-2") in
  exists i old,
    [Sample.hundred; existing] !! i = Some old
    /\ HistoryItem.text old = Sample.tokyo_text
    /\ HistoryItem.id r.1 = HistoryItem.id old
    /\ HistoryItem.lastPosition r.1 = HistoryItem.lastPosition old
    /\ HistoryItem.repeatMode r.1 = HistoryItem.repeatMode old
    /\ HistoryItem.playbackRate r.1 = HistoryItem.playbackRate old.
Proof.
  intros existing r.
  destruct (createOrUpdate_keeps_settings [Sample.hundred; existing]
              Sample.tokyo_text [] 1700000060000 (lit "id-2"))
    as (i & old & Hi & Htext & Hid & _ & Hpos & Hrep & Hrate & _ & _).
  - exists existing. split; [right; left | reflexivity].
  - exists i, old. repeat split; assumption.
Defined.

End History.

(** ** The playback controller *)

Section Playback.
Import Player.

(** A positive duration is not zero. *)
Lemma positive_not_zero (d : float) :
  PrimFloat.ltb 0 d = true -> PrimFloat.eqb d 0 = false.
Proof.
  rewrite FloatAxioms.ltb_spec, FloatAxioms.eqb_spec.
  destruct (Prim2SF d) as [[]|[]| |[] m e]; cbn; congruence.
Qed.

(** A positive number is not below 0. *)
Lemma positive_not_negative (x : float) :
  PrimFloat.ltb 0 x = true -> PrimFloat.ltb x 0 = false.
Proof.
  rewrite !FloatAxioms.ltb_spec.
  destruct (Prim2SF x) as [[]|[]| |[] m e]; cbn; congruence.
Qed.

(** The assignment of 0 to [currentTime] does not throw, and puts the
    element at 0 whatever its duration. *)
Lemma set_currentTime_zero (a : Audio.t) :
  Audio.set_currentTime 0 a = Normal (Audio.seek 0 a).
Proof. reflexivity. Qed.

Lemma seek_zero (a : Audio.t) : Audio.currentTime (Audio.seek 0 a) = 0%float.
Proof.
  unfold Audio.seek. cbn [Audio.currentTime].
  destruct (PrimFloat.is_nan (Audio.duration a)); [reflexivity|].
  destruct (PrimFloat.ltb (Audio.duration a) 0) eqn:Hneg.
  - now rewrite Hneg.
  - reflexivity.
Qed.

(** A seek to a position that is neither beyond the end nor before the
    start arrives there. *)
Lemma seek_within (v : float) (a : Audio.t) :
  PrimFloat.ltb (Audio.duration a) v = false -> PrimFloat.ltb v 0 = false ->
  Audio.currentTime (Audio.seek v a) = v.
Proof.
  intros Hend Hstart. unfold Audio.seek. cbn [Audio.currentTime].
  rewrite Hend, Hstart. now destruct (PrimFloat.is_nan (Audio.duration a)).
Qed.

(** C4.  When playback ends on the mounted element: below the
    configured repeat count the iteration counter goes up by one, the
    element is sought to 0 and plays again; otherwise the counter goes
    back to 1, the element is sought to 0 and the playing state is
    cleared.  With a repeat count of 5 that is a restart at iterations 1
    to 4 and a stop at iteration 5. *)
Theorem handleEnded_spec (st : State) (a : Audio.t) :
  audioRef st = Some a ->
  let st' := handleEnded st in
  repeatMode st' = repeatMode st
  /\ (currentRepeatCount st < repeatMode st ->
      currentRepeatCount st' = currentRepeatCount st + 1
      /\ audioRef st' = Some (Audio.play (Audio.seek 0 a))
      /\ isPlaying st' = true)
  /\ (repeatMode st <= currentRepeatCount st ->
      currentRepeatCount st' = 1
      /\ audioRef st' = Some (Audio.seek 0 a)
      /\ isPlaying st' = false)
  /\ (repeatMode st = 5 ->
      (1 <= currentRepeatCount st <= 4 ->
       currentRepeatCount st' = currentRepeatCount st + 1
       /\ Audio.currentTime <$> audioRef st' = Some 0%float
       /\ Audio.paused <$> audioRef st' = Some false
       /\ isPlaying st' = true)
      /\ (currentRepeatCount st = 5 ->
          currentRepeatCount st' = 1
          /\ Audio.currentTime <$> audioRef st' = Some 0%float
          /\ isPlaying st' = false)).
Proof.
  intros Ha st'. subst st'. unfold handleEnded.
  destruct (currentRepeatCount st <? repeatMode st) eqn:Hlt.
  - apply Z.ltb_lt in Hlt.
    cbn [audioRef setCurrentRepeatCount]. rewrite Ha, set_currentTime_zero.
    cbn -[Audio.seek]. rewrite seek_zero.
    repeat split; try reflexivity; lia.
  - apply Z.ltb_ge in Hlt.
    cbn [audioRef setCurrentRepeatCount setIsPlaying].
    rewrite Ha, set_currentTime_zero.
    cbn -[Audio.seek]. rewrite seek_zero.
    repeat split; try reflexivity; lia.
Qed.

(** A repeat count of 5, at iteration 4 (a restart) and at iteration 5
    (the stop). *)
Lemma handleEnded_spec_witness :
  let st4 := setCurrentRepeatCount 4
               (setRepeatMode 5 (Sample.loaded Sample.tokyo 10 10)) in
  let st5 := handleEnded st4 in
  (currentRepeatCount st5 = 5
   /\ Audio.currentTime <$> audioRef st5 = Some 0%float
   /\ Audio.paused <$> audioRef st5 = Some false
   /\ isPlaying st5 = true)
  /\ (currentRepeatCount (handleEnded st5) = 1
      /\ Audio.currentTime <$> audioRef (handleEnded st5) = Some 0%float
      /\ isPlaying (handleEnded st5) = false).
Proof.
  intros st4 st5. split.
  - destruct (handleEnded_spec st4 (Audio.mk 10 10 true 1) eq_refl)
      as (_ & _ & _ & Hfive).
    destruct (Hfive eq_refl) as [Hrestart _].
    apply Hrestart. cbn. lia.
  - destruct (handleEnded_spec st5 (Audio.mk 0 10 false 1) eq_refl)
      as (_ & _ & _ & Hfive).
    destruct (Hfive eq_refl) as [_ Hstop].
    apply Hstop. reflexivity.
Defined.

(** C6 (as amended).  With audio loaded in the mounted element, a text
    of [totalChars > 0] characters and a duration [d > 0], a click on a
    segment that starts at character [s] estimates the time
    [(s / totalChars) * d].  When the estimate is a finite number the
    displayed time is set to it, the element seeks to it, arriving there
    exactly unless it is beyond the end of the media or before 0, and
    playback runs afterwards: an element that was playing is only sought,
    one that was not is started.  When the estimate is not finite the
    assignment throws and the click changes nothing.  For [d = 10],
    [totalChars = 100] and [s = 20] the time is 2. *)
Theorem handleWordClick_seeks (props : Props) (st : State) (seg : Segment.t)
  (a : Audio.t) :
  audioRef st = Some a ->
  0 < totalChars props ->
  PrimFloat.ltb 0 (duration st) = true ->
  let estimatedStartTime :=
    (Z2F (Segment.startCharIndex seg) / Z2F (totalChars props)
     * duration st)%float in
  (PrimFloat.is_finite estimatedStartTime = true ->
   exists st',
     handleWordClick props st seg = Normal st'
     /\ currentTime st' = estimatedStartTime
     /\ isPlaying st' = true
     /\ (isPlaying st = true ->
         audioRef st' = Some (Audio.seek estimatedStartTime a))
     /\ (isPlaying st = false ->
         audioRef st' = Some (Audio.play (Audio.seek estimatedStartTime a)))
     /\ (PrimFloat.ltb (Audio.duration a) estimatedStartTime = false ->
         PrimFloat.ltb estimatedStartTime 0 = false ->
         Audio.currentTime <$> audioRef st' = Some estimatedStartTime))
  /\ (PrimFloat.is_finite estimatedStartTime = false ->
      handleWordClick props st seg = Throw TypeError)
  /\ (duration st = 10%float -> Audio.duration a = 10%float ->
      totalChars props = 100 -> Segment.startCharIndex seg = 20 ->
      exists st',
        handleWordClick props st seg = Normal st'
        /\ currentTime st' = 2%float
        /\ Audio.currentTime <$> audioRef st' = Some 2%float).
Proof.
  intros Ha _ Hd%positive_not_zero est.
  assert (Hfinite : PrimFloat.is_finite est = true ->
            exists st',
              handleWordClick props st seg = Normal st'
              /\ currentTime st' = est
              /\ isPlaying st' = true
              /\ (isPlaying st = true -> audioRef st' = Some (Audio.seek est a))
              /\ (isPlaying st = false ->
                  audioRef st' = Some (Audio.play (Audio.seek est a)))
              /\ (PrimFloat.ltb (Audio.duration a) est = false ->
                  PrimFloat.ltb est 0 = false ->
                  Audio.currentTime <$> audioRef st' = Some est)).
  { intros Hest. unfold handleWordClick. rewrite Ha, Hd. fold est.
    unfold Audio.set_currentTime. rewrite Hest. cbn [bind].
    eexists. split; [reflexivity|].
    destruct (isPlaying st) eqn:Hplaying; cbn -[Audio.seek].
    - split; [reflexivity|]. split; [exact Hplaying|].
      split; [reflexivity|]. split; [discriminate|].
      intros Hend Hstart. now rewrite seek_within.
    - split; [reflexivity|]. split; [reflexivity|].
      split; [discriminate|]. split; [reflexivity|].
      intros Hend Hstart. now rewrite seek_within. }
  split; [exact Hfinite|]. split.
  - intros Hest. unfold handleWordClick. rewrite Ha, Hd. fold est.
    unfold Audio.set_currentTime. now rewrite Hest.
  - intros H10 Ha10 H100 H20.
    assert (Htwo : est = 2%float).
    { subst est. now rewrite H10, H100, H20. }
    destruct Hfinite as (st' & Hclick & Htime & _ & _ & _ & Hseek).
    { now rewrite Htwo. }
    exists st'. split; [exact Hclick|]. rewrite <- Htwo.
    split; [exact Htime|]. apply Hseek.
    + now rewrite Ha10, Htwo.
    + now rewrite Htwo.
Qed.

(** The text of 100 characters with 10 seconds of audio: a click on the
    segment of characters 20 to 30 seeks to 2 seconds and starts
    playback. *)
Lemma handleWordClick_seeks_witness :
  let props := Sample.props Sample.hundred in
  let st := Sample.loaded Sample.hundred 10 0 in
  let seg := Segment.mk (replicate 10 12354%N) None 1 (replicate 10 12354%N)
               true 20 30 in
  segments None Sample.hundred !! 1%nat = Some seg
  /\ exists st',
       handleWordClick props st seg = Normal st'
       /\ currentTime st' = 2%float
       /\ Audio.currentTime <$> audioRef st' = Some 2%float
       /\ Audio.paused <$> audioRef st' = Some false
       /\ isPlaying st' = true.
Proof.
  intros props st seg. split; [reflexivity|].
  destruct (handleWordClick_seeks props st seg (Audio.mk 0 10 true 1))
    as ((st' & Hclick & Htime & Hplaying & _ & Hstarted & Hseek) & _ & _).
  - reflexivity.
  - reflexivity.
  - reflexivity.
  - reflexivity.
  - exists st'. split; [exact Hclick|]. split; [exact Htime|].
    split; [exact (Hseek eq_refl eq_refl)|].
    split; [|exact Hplaying].
    now rewrite (Hstarted eq_refl).
Defined.

(** C6, as stated, fails.  A duration of [+infinity] is greater than 0;
    on the text of 100 characters the estimate for the segment of
    characters 20 to 30 is then infinite, the assignment to [currentTime]
    throws, and the click neither seeks nor starts playback. *)
Lemma handleWordClick_infinite_duration_throws :
  let props := Sample.props Sample.hundred in
  let st := Sample.loaded Sample.hundred infinity 0 in
  let seg := Segment.mk (replicate 10 12354%N) None 1 (replicate 10 12354%N)
               true 20 30 in
  segments None Sample.hundred !! 1%nat = Some seg
  /\ 0 < totalChars props
  /\ PrimFloat.ltb 0 (duration st) = true
  /\ audioRef st = Some (Audio.mk 0 infinity true 1)
  /\ isPlaying st = false
  /\ handleWordClick props st seg = Throw TypeError.
Proof. repeat split; reflexivity. Qed.

(** C7 (as amended).  For a duration [d > 0], a segment is active
    exactly when its range [[startCharIndex, endCharIndex)] contains
    [(currentTime / d) * totalChars] itself, with no rounding; for
    [d = 0], the value before the metadata is loaded, no segment is active
    and a click on a segment changes nothing. *)
Theorem isSegmentActive_spec (props : Props) (st : State) (seg : Segment.t) :
  let charProgress :=
    (currentTime st / duration st * Z2F (totalChars props))%float in
  (PrimFloat.ltb 0 (duration st) = true ->
   (isSegmentActive props st seg = true <->
    PrimFloat.leb (Z2F (Segment.startCharIndex seg)) charProgress = true
    /\ PrimFloat.ltb charProgress (Z2F (Segment.endCharIndex seg)) = true))
  /\ (PrimFloat.eqb (duration st) 0 = true ->
      isSegmentActive props st seg = false
      /\ handleWordClick props st seg = Normal st).
Proof.
  intros charProgress. subst charProgress. split.
  - intros Hd%positive_not_zero. unfold isSegmentActive. rewrite Hd.
    apply andb_true_iff.
  - intros Hd. unfold isSegmentActive, handleWordClick. rewrite Hd.
    split; [reflexivity|]. now destruct (audioRef st).
Qed.

(** "東京です" with 8 seconds of audio, at 3.5 seconds: 1.75 characters
    in, the first segment is active and the second is not; before the
    metadata is loaded nothing is active and a click does nothing. *)
Lemma isSegmentActive_spec_witness :
  let props := Sample.props Sample.tokyo in
  let seg0 := Segment.mk [26481; 20140]%N
                (Some [12392; 12358; 12365; 12423; 12358]%N) 0
                [26481; 20140]%N true 0 2 in
  let seg1 := Segment.mk [12391; 12377]%N None 1 [12391; 12377]%N true 2 4 in
  segments None Sample.tokyo = [seg0; seg1]
  /\ isSegmentActive props (Sample.loaded Sample.tokyo 8 3.5) seg0 = true
  /\ isSegmentActive props (Sample.loaded Sample.tokyo 8 3.5) seg1 = false
  /\ isSegmentActive props (Sample.loaded Sample.tokyo 0 0) seg0 = false
  /\ handleWordClick props (Sample.loaded Sample.tokyo 0 0) seg0
     = Normal (Sample.loaded Sample.tokyo 0 0).
Proof.
  intros props seg0 seg1. split; [reflexivity|].
  destruct (isSegmentActive_spec props (Sample.loaded Sample.tokyo 8 3.5) seg0)
    as [Hpos0 _].
  destruct (isSegmentActive_spec props (Sample.loaded Sample.tokyo 8 3.5) seg1)
    as [Hpos1 _].
  destruct (isSegmentActive_spec props (Sample.loaded Sample.tokyo 0 0) seg0)
    as [_ Hzero].
  split; [apply (Hpos0 eq_refl); split; reflexivity|].
  split.
  - apply not_true_is_false. intros Hactive.
    apply (Hpos1 eq_refl) in Hactive as [Hle _]. discriminate Hle.
  - exact (Hzero eq_refl).
Defined.

(** C7, as stated, fails.  At 3.5 of 8 seconds "東京です" is 1.75
    characters in, which rounds to 2: the segment that contains 2 is the
    second one, the segment that is active is the first one. *)
Lemma isSegmentActive_not_rounded :
  let props := Sample.props Sample.tokyo in
  let st := Sample.loaded Sample.tokyo 8 3.5 in
  let seg0 := Segment.mk [26481; 20140]%N
                (Some [12392; 12358; 12365; 12423; 12358]%N) 0
                [26481; 20140]%N true 0 2 in
  let seg1 := Segment.mk [12391; 12377]%N None 1 [12391; 12377]%N true 2 4 in
  segments None Sample.tokyo = [seg0; seg1]
  /\ PrimFloat.ltb 0 (duration st) = true
  /\ roundZ (currentTime st / duration st * Z2F (totalChars props))%float
     = Some 2
  /\ isSegmentActive props st seg0 = true
  /\ spec_isSegmentActive props st seg0 = false
  /\ isSegmentActive props st seg1 = false
  /\ spec_isSegmentActive props st seg1 = true.
Proof. repeat split; reflexivity. Qed.

(** The test in [handleTimeUpdate] looks at the media time alone: a
    tick within an even-numbered second reports the progress, however
    recent the last report. *)
Lemma handleTimeUpdate_even_second (props : Props) (st : State) (a : Audio.t) :
  audioRef st = Some a ->
  floor_is_even (Audio.currentTime a) = true ->
  (handleTimeUpdate props st).2
  = [mkProgressUpdate (HistoryItem.id (activeItem props))
       (Audio.currentTime a) (repeatMode st) (playbackRate st)].
Proof. intros Ha Heven. unfold handleTimeUpdate. now rewrite Ha, Heven. Qed.

(** C8, which the code does not meet.  Every [timeupdate] whose media
    time has an even integer part calls [onUpdateProgress]: three ticks
    within the first second give three calls, two ticks within the second
    second give none. *)
Theorem handleTimeUpdate_every_tick_of_even_seconds :
  let props := Sample.props Sample.tokyo in
  let st := Sample.loaded Sample.tokyo 8 0 in
  let id := HistoryItem.id Sample.tokyo in
  timeupdates props st [0.25; 0.5; 0.75]%float
  = [mkProgressUpdate id 0.25 1 1; mkProgressUpdate id 0.5 1 1;
     mkProgressUpdate id 0.75 1 1]
  /\ timeupdates props st [1.25; 1.5]%float = [].
Proof. split; reflexivity. Qed.

(** C9 (as amended).  A click on an entry [count] of the repeat menu
    sets the configured repeat count to [count], closes the menu and
    reports the count to the history store; the iteration counter, the
    playing state, the time and the element stay as they are. *)
Theorem repeatMenu_onClick_spec (props : Props) (st : State) (count : Z) :
  count ∈ REPEAT_COUNTS ->
  let st' := (repeatMenu_onClick props st count).1 in
  repeatMode st' = count
  /\ currentRepeatCount st' = currentRepeatCount st
  /\ showRepeatMenu st' = false
  /\ isPlaying st' = isPlaying st
  /\ currentTime st' = currentTime st
  /\ audioRef st' = audioRef st
  /\ (repeatMenu_onClick props st count).2
     = [mkProgressUpdate (HistoryItem.id (activeItem props)) (currentTime st)
          count (playbackRate st)].
Proof. intros _ st'. repeat split. Qed.

(** A run of the player: a repeat count of 5 chosen, then playback
    ending twice, which is the third iteration. *)
Lemma third_iteration :
  let props := Sample.props Sample.tokyo in
  let st0 := Sample.loaded Sample.tokyo 8 0 in
  currentRepeatCount
    (handleEnded (handleEnded (repeatMenu_onClick props st0 5).1)) = 3.
Proof. reflexivity. Qed.

Lemma repeatMenu_onClick_spec_witness :
  let props := Sample.props Sample.tokyo in
  let st3 := handleEnded (handleEnded
               (repeatMenu_onClick props (Sample.loaded Sample.tokyo 8 0) 5).1) in
  repeatMode (repeatMenu_onClick props st3 10).1 = 10
  /\ currentRepeatCount (repeatMenu_onClick props st3 10).1 = 3.
Proof.
  intros props st3.
  destruct (repeatMenu_onClick_spec props st3 10) as (Hmode & Hcount & _).
  - unfold REPEAT_COUNTS. repeat constructor.
  - split; [exact Hmode | exact Hcount].
Defined.

(** C9, as stated, fails.  In the third of five iterations, choosing a
    repeat count of 10 leaves the iteration counter at 3. *)
Lemma repeatMenu_onClick_keeps_counter :
  let props := Sample.props Sample.tokyo in
  let st3 := handleEnded (handleEnded
               (repeatMenu_onClick props (Sample.loaded Sample.tokyo 8 0) 5).1) in
  10 ∈ REPEAT_COUNTS
  /\ repeatMode (repeatMenu_onClick props st3 10).1 = 10
  /\ currentRepeatCount (repeatMenu_onClick props st3 10).1 = 3
  /\ currentRepeatCount (repeatMenu_onClick props st3 10).1 <> 1.
Proof.
  intros props st3. split; [unfold REPEAT_COUNTS; repeat constructor|].
  split; [reflexivity|]. split; [reflexivity | discriminate].
Qed.

End Playback.

(** ** The generation request *)

Section Generation.
Import App.

(** The analysis never rejects: an exception becomes no tokens. *)
Lemma analyzeJapaneseText_failure :
  analyzeJapaneseText None = fulfilled (JsonTokens []).
Proof. reflexivity. Qed.

(** The speech request rejects on every response but audio, and on
    audio it fulfils. *)
Lemma generateJapaneseSpeech_settles createObjectURL response :
  match response with
  | SpeechAudio bytes =>
      exists wav, Wav.pcmToWav bytes Wav.SAMPLE_RATE = Some wav
                  /\ generateJapaneseSpeech createObjectURL response
                     = fulfilled (createObjectURL wav)
  | _ => exists message,
           generateJapaneseSpeech createObjectURL response = rejected message
  end.
Proof.
  destruct response as [message| | |bytes]; unfold generateJapaneseSpeech;
    [eauto ..|].
  rewrite pcmToWav_eq. eauto.
Qed.

Lemma or_else_nonempty (a : option jsstring) (b : jsstring) :
  b <> [] -> or_else a b <> [].
Proof.
  intros Hb. destruct a as [[|c s]|]; cbn; [exact Hb | discriminate | exact Hb].
Qed.

(** The [catch] sets an error message that is not empty, ends the
    loading, and touches neither the history nor the active item nor the
    audio. *)
Lemma handleGenerate_catch_spec (message : jsstring) (st : State) :
  let st' := handleGenerate_catch message st in
  (exists msg, error st' = Some msg /\ msg <> []
               /\ (message <> [] -> msg = message))
  /\ App.history st' = App.history st
  /\ activeItem st' = activeItem st
  /\ audioUrl st' = audioUrl st
  /\ isLoading st' = false.
Proof.
  unfold handleGenerate_catch, setIsLoading, setError.
  cbn [error App.history activeItem audioUrl isLoading].
  split; [|repeat split].
  eexists. split; [reflexivity|]. split.
  - apply or_else_nonempty. discriminate.
  - intros Hne. now destruct message.
Qed.

(** Whatever happened to the state while the two promises were pending:
    a rejected speech promise ends in the [catch]. *)
Lemma handleGenerate_settled_rejected inputText history st message
  tokensResult typeErrorMessage now uuid :
  handleGenerate_settled inputText history st (rejected message)
    tokensResult typeErrorMessage now uuid
  = handleGenerate_catch (or_else message (lit "Failed to generate speech")) st.
Proof. reflexivity. Qed.

(** A fulfilled speech promise with an analysis that threw or rejected
    commits the item with no new tokens and sets no error. *)
Lemma handleGenerate_settled_unanalyzed inputText history st url
  tokensResult typeErrorMessage now uuid :
  tokensResult = analyzeJapaneseText None
  \/ (exists message, tokensResult = rejected message) ->
  let st' := handleGenerate_settled inputText history st (fulfilled url)
               tokensResult typeErrorMessage now uuid in
  let r := createOrUpdate history inputText [] now uuid in
  error st' = error st
  /\ audioUrl st' = Some url
  /\ activeItem st' = Some r.1
  /\ App.history st' = r.2
  /\ isLoading st' = false.
Proof.
  intros [-> | [message ->]];
    unfold handleGenerate_settled, analyzeJapaneseText, createOrUpdate_unchecked;
    destruct (createOrUpdate history inputText [] now uuid) as [newItem newHist];
    repeat split.
Qed.

(** A fulfilled speech promise with an analysis that returned [null]
    for a text that the history holds already ends in the [catch]. *)
Lemma handleGenerate_settled_null inputText history st url typeErrorMessage
  now uuid i existing :
  list_find (fun h => HistoryItem.text h = inputText) history
  = Some (i, existing) ->
  handleGenerate_settled inputText history st (fulfilled url)
    (fulfilled JsonNull) typeErrorMessage now uuid
  = handleGenerate_catch typeErrorMessage st.
Proof.
  intros Hfind. unfold handleGenerate_settled, createOrUpdate_unchecked.
  now rewrite Hfind.
Qed.

(** C5, which the code does not meet.  The text of the request is in
    the history already and the speech promise fulfils.  When the analysis
    throws, or were it to reject, the request completes with no new
    tokens, the audio is set and no error is shown, as the claim says.
    When the response of the analysis is the JSON text [null], which
    [JSON.parse] accepts and the cast to [Token[]] lets through, the
    promise fulfils with [null]: [tokens.length] throws, the [catch] shows
    the message of the [TypeError] to the user, and the request ends
    without its audio and without committing the item. *)
Theorem handleGenerate_null_analysis_is_surfaced :
  let st := mkState [Sample.tokyo] None None false Sample.tokyo_text false
              None in
  let url := lit "blob:audio" in
  let message := lit "tokens is null" in
  let run tokensResult :=
    handleGenerate st (fulfilled url) tokensResult message 1700000060000
      (lit "id-2") in
  let thrown := run (analyzeJapaneseText None) in
  let rejects := run (rejected None) in
  let null := run (analyzeJapaneseText (Some JsonNull)) in
  (error thrown = None
   /\ audioUrl thrown = Some url
   /\ activeItem thrown
      = Some (HistoryItem.mk (HistoryItem.id Sample.tokyo) Sample.tokyo_text
                (Some Sample.tokyo_tokens) 1700000060000 0 1 (Some 1%float))
   /\ rejects = thrown)
  /\ analyzeJapaneseText (Some JsonNull) = fulfilled JsonNull
  /\ error null = Some message
  /\ renderedError null = Some message
  /\ audioUrl null = None
  /\ activeItem null = None
  /\ history null = [Sample.tokyo]
  /\ isLoading null = false.
Proof.
  intros st url message run thrown rejects null.
  split.
  - destruct (handleGenerate_settled_unanalyzed (inputText st) (history st)
                (setAudioUrl None (setError None (setIsLoading true st)))
                url (analyzeJapaneseText None) message 1700000060000
                (lit "id-2") (or_introl eq_refl))
      as (Herr & Hurl & Hactive & _).
    split; [exact Herr|]. split; [exact Hurl|]. split; [exact Hactive|].
    reflexivity.
  - split; [reflexivity|].
    assert (Hnull : null
              = handleGenerate_catch message
                  (setAudioUrl None (setError None (setIsLoading true st)))).
    { exact (handleGenerate_settled_null (inputText st) (history st) _ url
               message 1700000060000 (lit "id-2") 0%nat Sample.tokyo eq_refl). }
    destruct (handleGenerate_catch_spec message
                (setAudioUrl None (setError None (setIsLoading true st))))
      as ((msg & Herr & _ & Hmsg) & Hhist & Hactive & Hurl & Hloading).
    rewrite <- Hnull in Herr, Hhist, Hactive, Hurl, Hloading.
    rewrite (Hmsg ltac:(discriminate)) in Herr.
    split; [exact Herr|].
    split; [unfold renderedError; now rewrite Hactive|].
    repeat split; assumption.
Qed.

End Generation.

(* ===================================================================== *)
(** * Part III.  Further properties of the code                           *)
(* ===================================================================== *)

(** ** The speech service *)

Section SpeechService.
Import Wav GeminiService App.

(** X1.  [pcmToWav] only frames: for every payload and sample rate it
    returns, without a range error, 44 bytes followed by the payload, and
    the 44 bytes are the same for every payload of that length. *)
Theorem pcmToWav_framing (pcmData : list Byte.byte) (sampleRate : Z) :
  exists hdr,
    length hdr = 44%nat
    /\ pcmToWav pcmData sampleRate = Some (hdr ++ pcmData)
    /\ forall pcmData', length pcmData' = length pcmData ->
                        pcmToWav pcmData' sampleRate = Some (hdr ++ pcmData').
Proof.
  exists (header sampleRate (Z.of_nat (length pcmData))).
  split; [apply header_length|]. split; [apply pcmToWav_eq|].
  intros pcmData' <-. apply pcmToWav_eq.
Qed.

Lemma store_fits (buf : ArrayBuffer) (offset : nat) (bs : list Byte.byte) :
  (offset + length bs <= length buf)%nat ->
  store buf offset bs
  = Some (take offset buf ++ bs ++ drop (offset + length bs) buf).
Proof. intros Hfit. unfold store. now rewrite (leb_correct _ _ Hfit). Qed.

Lemma store_overflows (buf : ArrayBuffer) (offset : nat) (bs : list Byte.byte) :
  (length buf < offset + length bs)%nat -> store buf offset bs = None.
Proof.
  intros Hover. unfold store. now rewrite leb_correct_conv by exact Hover.
Qed.

Lemma writeString_fits (s : jsstring) (view : ArrayBuffer) (offset : nat) :
  (offset + length s <= length view)%nat ->
  writeString view offset s
  = Some (take offset view ++ map (fun c => byte_of (Z.of_N c) 0) s
          ++ drop (offset + length s) view).
Proof.
  revert view offset. induction s as [|c r IH]; intros view offset Hfit.
  - cbn [writeString map length app]. rewrite Nat.add_0_r.
    now rewrite take_drop.
  - cbn [writeString map length] in *. unfold setUint8.
    rewrite store_fits by (cbn [length]; lia).
    cbn [mbind option_bind length].
    set (b := byte_of (Z.of_N c) 0).
    set (view' := take offset view ++ [b] ++ drop (offset + 1) view).
    assert (Hlen : length view' = length view).
    { subst view'. rewrite !length_app, length_take, length_drop.
      cbn [length]. lia. }
    rewrite IH by lia. f_equal.
    assert (Htake : take (S offset) view' = take offset view ++ [b]).
    { subst view'. rewrite app_assoc.
      rewrite take_app_length'; [reflexivity|].
      rewrite length_app, length_take. cbn [length]. lia. }
    assert (Hdrop : drop (S offset + length r) view'
                    = drop (offset + S (length r)) view).
    { subst view'. rewrite app_assoc.
      replace (S offset + length r)%nat
        with (length (take offset view ++ [b]) + length r)%nat
        by (rewrite length_app, length_take; cbn [length]; lia).
      rewrite drop_app_add, drop_drop. f_equal. lia. }
    rewrite Htake, Hdrop. now rewrite <- app_assoc.
Qed.

Lemma writeString_overflows (s : jsstring) (view : ArrayBuffer) (offset : nat) :
  s <> [] -> (length view < offset + length s)%nat ->
  writeString view offset s = None.
Proof.
  revert view offset. induction s as [|c r IH]; intros view offset Hne Hover;
    [now destruct Hne|].
  cbn [writeString length] in *. unfold setUint8.
  destruct (decide (offset + 1 <= length view)%nat) as [Hfit|Hnofit].
  - rewrite store_fits by (cbn [length]; exact Hfit).
    cbn [mbind option_bind length]. apply IH.
    + destruct r; [cbn [length] in Hover; lia | discriminate].
    + rewrite !length_app, length_take, length_drop. cbn [length]. lia.
  - rewrite store_overflows by (cbn [length]; lia). reflexivity.
Qed.

(** X2.  [writeString] writes the low byte of each code unit at
    [offset], [offset + 1], ... and nothing else when the string fits in
    the view; a non-empty string that does not fit raises the range error
    of [setUint8]. *)
Theorem writeString_bounds (view : ArrayBuffer) (offset : nat) (s : jsstring) :
  ((offset + length s <= length view)%nat ->
   writeString view offset s
   = Some (take offset view ++ map (fun c => byte_of (Z.of_N c) 0) s
           ++ drop (offset + length s) view))
  /\ (s <> [] -> (length view < offset + length s)%nat ->
      writeString view offset s = None).
Proof.
  split; [apply writeString_fits | apply writeString_overflows].
Qed.

Lemma writeString_bounds_witness :
  writeString (new_ArrayBuffer 6) 1 (lit "RIFF")
  = Some (Byte.x00 :: ascii_bytes "RIFF" ++ [Byte.x00])
  /\ writeString (new_ArrayBuffer 4) 1 (lit "RIFF") = None.
Proof.
  destruct (writeString_bounds (new_ArrayBuffer 6) 1 (lit "RIFF")) as [Hfit _].
  destruct (writeString_bounds (new_ArrayBuffer 4) 1 (lit "RIFF")) as [_ Hover].
  split.
  - exact (Hfit ltac:(cbn; lia)).
  - apply Hover; [discriminate | cbn; lia].
Defined.

(** X3.  [generateJapaneseSpeech] fulfils exactly on a response with
    audio data, with the URL of a container of [44 + L] bytes that
    declares one channel, 24000 Hz and 16 bits and carries the decoded
    bytes from offset 44; a response without parts or without audio data
    rejects with the message the code throws, and an exception of the
    call is rethrown as it is. *)
Theorem generateJapaneseSpeech_outcomes
  (createObjectURL : ArrayBuffer -> jsstring) (response : SpeechResponse) :
  match response with
  | SpeechAudio bytes =>
      exists wav,
        generateJapaneseSpeech createObjectURL response
        = fulfilled (createObjectURL wav)
        /\ length wav = (44 + length bytes)%nat
        /\ getUint16 wav 22 = Some 1
        /\ getUint32 wav 24 = Some 24000
        /\ getUint16 wav 34 = Some 16
        /\ drop 44 wav = bytes
  | SpeechNoContent =>
      generateJapaneseSpeech createObjectURL response
      = rejected (Some (lit "No content generated"))
  | SpeechNoAudio =>
      generateJapaneseSpeech createObjectURL response
      = rejected (Some (lit "No audio data found in response"))
  | SpeechError message =>
      generateJapaneseSpeech createObjectURL response = rejected message
  end.
Proof.
  destruct response as [message| | |bytes]; try reflexivity.
  destruct (pcmToWav_fields bytes SAMPLE_RATE)
    as (wav & Hwav & Hlen & _ & _ & _ & _ & _ & _ & Hch & Hsr & _ & _ & Hbits
        & _ & _ & Hpayload).
  exists wav. unfold generateJapaneseSpeech. rewrite Hwav.
  repeat split; assumption.
Qed.

(** X4.  The loop after [atob] keeps the decoded string: one byte per
    code unit, and for code units below 256, which is what [atob]
    returns, the byte is the code unit. *)
Theorem bytesOfBinaryString_lossless (binaryString : jsstring) :
  Forall (fun c => (c < 256)%N) binaryString ->
  length (bytesOfBinaryString binaryString) = length binaryString
  /\ map Byte.to_N (bytesOfBinaryString binaryString) = binaryString.
Proof.
  unfold bytesOfBinaryString. intros Hlatin1.
  split; [apply length_map|].
  induction Hlatin1 as [|c r Hc _ IH]; [reflexivity|].
  cbn [map]. rewrite IH. f_equal.
  pose proof (byte_val_byte_of (Z.of_N c) 0 ltac:(lia)) as Hval.
  unfold byte_val in Hval. cbn [Z.mul] in Hval.
  change (2 ^ 0) with 1 in Hval. rewrite Z.div_1_r in Hval.
  rewrite Z.mod_small in Hval by lia. lia.
Qed.

Lemma bytesOfBinaryString_lossless_witness :
  map Byte.to_N (bytesOfBinaryString [0; 255; 82; 128]%N) = [0; 255; 82; 128]%N.
Proof.
  apply (bytesOfBinaryString_lossless [0; 255; 82; 128]%N).
  repeat constructor.
Defined.

Lemma trimStart_app_whitespace (ws s : jsstring) :
  Forall (fun c => isWhiteSpace c = true) ws ->
  trimStart (ws ++ s) = trimStart s.
Proof.
  induction 1 as [|c ws Hc _ IH]; [reflexivity|].
  cbn [app trimStart]. now rewrite Hc.
Qed.

Lemma trimStart_head (s : jsstring) :
  (forall c, head s = Some c -> isWhiteSpace c = false) -> trimStart s = s.
Proof.
  destruct s as [|c r]; [reflexivity|]. intros Hhead.
  cbn [trimStart]. now rewrite (Hhead c eq_refl).
Qed.

Lemma dropPrefix_app (p s : jsstring) : dropPrefix p (p ++ s) = Some s.
Proof.
  induction p as [|a p IH]; [reflexivity|].
  cbn [app dropPrefix]. now rewrite N.eqb_refl.
Qed.

(** X5.  What goes to [JSON.parse]: a text between a [```json] fence
    and a closing fence, with any white space after the one and before the
    other, is handed over without them, provided the text itself neither
    starts nor ends with white space; a missing or empty response text is
    handed over as ["[]"]. *)
Theorem jsonStr_fenced (body ws1 ws2 : jsstring) :
  Forall (fun c => isWhiteSpace c = true) ws1 ->
  Forall (fun c => isWhiteSpace c = true) ws2 ->
  (forall c, head body = Some c -> isWhiteSpace c = false) ->
  (forall c, last body = Some c -> isWhiteSpace c = false) ->
  jsonStr (Some (lit "```json" ++ ws1 ++ body ++ ws2 ++ lit "```")) = body
  /\ jsonStr None = lit "[]"
  /\ jsonStr (Some []) = lit "[]".
Proof.
  intros Hws1 Hws2 Hhead Hlast. split; [|split; reflexivity].
  unfold jsonStr.
  change (or_else (Some (lit "```json" ++ ws1 ++ body ++ ws2 ++ lit "```"))
            (lit "[]"))
    with (lit "```json" ++ ws1 ++ body ++ ws2 ++ lit "```").
  unfold stripFenceOpen. rewrite dropPrefix_app.
  rewrite trimStart_app_whitespace by exact Hws1.
  destruct body as [|c r].
  - cbn [app]. rewrite trimStart_app_whitespace by exact Hws2. reflexivity.
  - rewrite trimStart_head by (intros c' [= <-]; apply Hhead; reflexivity).
    unfold stripFenceClose.
    rewrite !rev_app_distr, <- app_assoc, dropPrefix_app.
    rewrite trimStart_app_whitespace
      by (apply Forall_forall; intros c' Hc'; rewrite Forall_forall in Hws2;
          apply Hws2, list_elem_of_In, in_rev, list_elem_of_In, Hc').
    rewrite trimStart_head; [apply rev_involutive|].
    intros c' Hc'. apply Hlast.
    destruct (c :: r) as [|b q _] using rev_ind; [discriminate|].
    rewrite rev_app_distr in Hc'. cbn in Hc'. injection Hc' as <-.
    apply last_snoc.
Qed.

Lemma jsonStr_fenced_witness :
  jsonStr (Some (lit "```json" ++ [10]%N ++ lit "[{}]" ++ [32; 10]%N
                 ++ lit "```"))
  = lit "[{}]".
Proof.
  apply (jsonStr_fenced (lit "[{}]") [10]%N [32; 10]%N).
  - repeat constructor.
  - repeat constructor.
  - intros c [= <-]. reflexivity.
  - intros c [= <-]. reflexivity.
Defined.

End SpeechService.

(** ** More on the segment mapper *)

Section SegmentsOfTokens.
Import Player.

Lemma tokenSegments_fields (tokens : list Token.t) (idx charIndex : Z) :
  map Segment.segment (tokenSegments tokens idx charIndex)
  = map Token.surface tokens
  /\ map Segment.reading (tokenSegments tokens idx charIndex)
     = map Token.reading tokens
  /\ Forall (fun s => Segment.isWordLike s = true)
       (tokenSegments tokens idx charIndex)
  /\ (forall (i : nat) s,
        tokenSegments tokens idx charIndex !! i = Some s ->
        Segment.index s = idx + Z.of_nat i).
Proof.
  revert idx charIndex. induction tokens as [|token rest IH];
    intros idx charIndex.
  - repeat split; [constructor | intros i s; discriminate].
  - destruct (IH (idx + 1) (charIndex + jslength (Token.surface token)))
      as (Hseg & Hread & Hword & Hidx).
    cbn [tokenSegments map]. rewrite Hseg, Hread.
    repeat split; [constructor; [reflexivity | exact Hword]|].
    intros [|i] s Hs; cbn in Hs.
    + injection Hs as <-. cbn. lia.
    + rewrite (Hidx i s Hs). lia.
Qed.

Lemma iteratorSegments_readings (iterator : list SegmentData.t) (charIndex : Z) :
  Forall (fun s => Segment.reading s = None)
    (iteratorSegments iterator charIndex).
Proof.
  revert charIndex. induction iterator as [|seg rest IH]; intros charIndex;
    cbn [iteratorSegments]; constructor; [reflexivity | apply IH].
Qed.

Lemma fallbackSegments_readings (Intl_Segmenter : option Segmenter)
  (text : jsstring) :
  Forall (fun s => Segment.reading s = None)
    (fallbackSegments Intl_Segmenter text).
Proof.
  unfold fallbackSegments. destruct (falsy text); [constructor|].
  destruct Intl_Segmenter as [segmenter|].
  - apply iteratorSegments_readings.
  - repeat constructor.
Qed.

(** X6.  With stored tokens there is one segment per token, in order,
    with the token's surface as its text, the token's reading (present or
    absent) as its reading, its position as its index, and word-like; with
    no stored tokens, whatever the platform, no segment has a reading. *)
Theorem segments_readings (Intl_Segmenter : option Segmenter)
  (activeItem : HistoryItem.t) :
  let segs := segments Intl_Segmenter activeItem in
  (forall tokens,
     HistoryItem.tokens activeItem = Some tokens -> tokens <> [] ->
     map Segment.segment segs = map Token.surface tokens
     /\ map Segment.reading segs = map Token.reading tokens
     /\ Forall (fun s => Segment.isWordLike s = true) segs
     /\ (forall (i : nat) s, segs !! i = Some s ->
                             Segment.index s = Z.of_nat i))
  /\ (HistoryItem.tokens activeItem = None
      \/ HistoryItem.tokens activeItem = Some [] ->
      Forall (fun s => Segment.reading s = None) segs).
Proof.
  intros segs. subst segs. unfold segments. split.
  - intros tokens -> Hne. destruct tokens as [|token rest]; [now destruct Hne|].
    change (0 <? Z.of_nat (length (token :: rest)))
      with (0 <? Z.pos (Pos.of_succ_nat (length rest))).
    cbn [Z.ltb Z.compare].
    destruct (tokenSegments_fields (token :: rest) 0 0)
      as (Hseg & Hread & Hword & Hidx).
    repeat split; assumption.
  - intros [-> | ->]; apply fallbackSegments_readings.
Qed.

Lemma segments_readings_witness :
  map Segment.reading (segments None Sample.tokyo)
  = [Some [12392; 12358; 12365; 12423; 12358]%N; None]
  /\ Forall (fun s => Segment.reading s = None)
       (segments (Some Sample.unitSegmenter) Sample.tokyo_unanalyzed).
Proof.
  destruct (segments_readings None Sample.tokyo) as [Htokens _].
  destruct (segments_readings (Some Sample.unitSegmenter)
              Sample.tokyo_unanalyzed) as [_ Hnone].
  split.
  - destruct (Htokens Sample.tokyo_tokens eq_refl) as (_ & Hread & _).
    + discriminate.
    + exact Hread.
  - apply Hnone. right. reflexivity.
Defined.

Lemma tokenSegments_measure (tokens : list Token.t) (idx charIndex : Z) :
  Forall (fun s => Segment.endCharIndex s - Segment.startCharIndex s
                   = jslength (Segment.segment s))
    (tokenSegments tokens idx charIndex).
Proof.
  revert idx charIndex. induction tokens as [|token rest IH];
    intros idx charIndex; cbn [tokenSegments]; constructor;
    [cbn; lia | apply IH].
Qed.

Lemma iteratorSegments_measure (iterator : list SegmentData.t) (charIndex : Z) :
  Forall (fun s => Segment.endCharIndex s - Segment.startCharIndex s
                   = jslength (Segment.segment s))
    (iteratorSegments iterator charIndex).
Proof.
  revert charIndex. induction iterator as [|seg rest IH]; intros charIndex;
    cbn [iteratorSegments]; constructor; [cbn; lia | apply IH].
Qed.

(** X7.  Whatever the stored tokens and whatever the platform's
    segmenter return, contract or not: every segment's range is as long
    as its text, the first segment starts at 0, each segment ends where
    the next one starts, and the last one ends at the total length of the
    segments' texts. *)
Theorem segments_contiguous (Intl_Segmenter : option Segmenter)
  (activeItem : HistoryItem.t) :
  let segs := segments Intl_Segmenter activeItem in
  Forall (fun s => Segment.endCharIndex s - Segment.startCharIndex s
                   = jslength (Segment.segment s)) segs
  /\ (forall s, head segs = Some s -> Segment.startCharIndex s = 0)
  /\ (forall (i : nat) s s',
        segs !! i = Some s -> segs !! S i = Some s' ->
        Segment.endCharIndex s = Segment.startCharIndex s')
  /\ (forall s, last segs = Some s ->
                Segment.endCharIndex s
                = jslength (concat (map Segment.segment segs))).
Proof.
  intros segs.
  assert (Hfallback : forall text,
    let fb := fallbackSegments Intl_Segmenter text in
    Forall (fun s => Segment.endCharIndex s - Segment.startCharIndex s
                     = jslength (Segment.segment s)) fb
    /\ tiles fb 0 (jslength (concat (map Segment.segment fb)))).
  { intros text. unfold fallbackSegments. destruct (falsy text).
    - split; [constructor | reflexivity].
    - destruct Intl_Segmenter as [segmenter|].
      + split; [apply iteratorSegments_measure|].
        destruct (iteratorSegments_tiles (segmenter text) 0) as [Ht Hc].
        now rewrite Hc.
      + split.
        * constructor; [|constructor].
          cbn [Segment.endCharIndex Segment.startCharIndex Segment.segment].
          lia.
        * cbn [map concat tiles Segment.segment Segment.startCharIndex
               Segment.endCharIndex].
          now rewrite app_nil_r. }
  assert (Hsegs :
    Forall (fun s => Segment.endCharIndex s - Segment.startCharIndex s
                     = jslength (Segment.segment s)) segs
    /\ tiles segs 0 (jslength (concat (map Segment.segment segs)))).
  { subst segs. unfold segments.
    destruct (HistoryItem.tokens activeItem) as [tokens|]; [|apply Hfallback].
    destruct (0 <? Z.of_nat (length tokens)); [|apply Hfallback].
    split; [apply tokenSegments_measure|].
    destruct (tokenSegments_tiles tokens 0 0) as [Ht Hc]. now rewrite Hc. }
  destruct Hsegs as [Hmeasure Ht].
  destruct (tiles_spelled_out _ _ _ Ht) as (Hhead & Hadj & Hlast). auto.
Qed.

End SegmentsOfTokens.

(** ** More on the history store *)

Section HistoryMutations.
Import App.

Implicit Types (h : list HistoryItem.t) (id inputText : jsstring).

Lemma lookup_map {A B} (f : A -> B) (l : list A) (i : nat) :
  map f l !! i = f <$> l !! i.
Proof.
  revert i. induction l as [|x l IH]; intros [|i]; cbn; auto.
Qed.

(** X8.  A progress update changes neither the number of items nor
    their order, ids, texts, tokens or creation times; an item with
    another id stays as it is, and every item with the given id gets the
    reported position, repeat count and rate. *)
Theorem updateProgress_frame id progress repeatMode playbackRate h :
  let h' := updateProgress id progress repeatMode playbackRate h in
  length h' = length h
  /\ HistoryItem.id <$> h' = HistoryItem.id <$> h
  /\ HistoryItem.text <$> h' = HistoryItem.text <$> h
  /\ HistoryItem.tokens <$> h' = HistoryItem.tokens <$> h
  /\ HistoryItem.createdAt <$> h' = HistoryItem.createdAt <$> h
  /\ (forall (i : nat) x, h !! i = Some x ->
        (HistoryItem.id x <> id -> h' !! i = Some x)
        /\ (HistoryItem.id x = id ->
            exists y, h' !! i = Some y
                      /\ HistoryItem.lastPosition y = progress
                      /\ HistoryItem.repeatMode y = repeatMode
                      /\ HistoryItem.playbackRate y = Some playbackRate)).
Proof.
  intros h'. subst h'. unfold updateProgress.
  split; [apply length_map|].
  assert (Hfield : forall {B} (f : HistoryItem.t -> B),
    (forall x, f (HistoryItem.mk (HistoryItem.id x) (HistoryItem.text x)
                    (HistoryItem.tokens x) (HistoryItem.createdAt x)
                    progress repeatMode (Some playbackRate)) = f x) ->
    f <$> map (fun item =>
                 if decide (HistoryItem.id item = id)
                 then HistoryItem.mk (HistoryItem.id item)
                        (HistoryItem.text item) (HistoryItem.tokens item)
                        (HistoryItem.createdAt item) progress repeatMode
                        (Some playbackRate)
                 else item) h
    = f <$> h).
  { intros B f Hf. induction h as [|x h IH]; [reflexivity|].
    cbn. rewrite IH. f_equal.
    destruct (decide (HistoryItem.id x = id)); [apply Hf | reflexivity]. }
  repeat (split; [apply Hfield; reflexivity|]).
  intros i x Hi. rewrite lookup_map, Hi. cbn. split; intros Hid.
  - now rewrite decide_False.
  - rewrite decide_True by exact Hid. eexists. repeat split.
Qed.

Lemma updateProgress_cons id progress repeatMode playbackRate x h :
  updateProgress id progress repeatMode playbackRate (x :: h)
  = (if decide (HistoryItem.id x = id)
     then HistoryItem.mk (HistoryItem.id x) (HistoryItem.text x)
            (HistoryItem.tokens x) (HistoryItem.createdAt x)
            progress repeatMode (Some playbackRate)
     else x)
    :: updateProgress id progress repeatMode playbackRate h.
Proof. reflexivity. Qed.

(** X9.  An update for an id that no item has changes nothing; of two
    updates for the same id the later one wins; updates for different ids
    can be applied in either order. *)
Theorem updateProgress_compose h :
  (forall id p r s,
     (forall x, x ∈ h -> HistoryItem.id x <> id) ->
     updateProgress id p r s h = h)
  /\ (forall id p1 r1 s1 p2 r2 s2,
        updateProgress id p2 r2 s2 (updateProgress id p1 r1 s1 h)
        = updateProgress id p2 r2 s2 h)
  /\ (forall id1 id2 p1 r1 s1 p2 r2 s2,
        id1 <> id2 ->
        updateProgress id2 p2 r2 s2 (updateProgress id1 p1 r1 s1 h)
        = updateProgress id1 p1 r1 s1 (updateProgress id2 p2 r2 s2 h)).
Proof.
  split; [|split].
  - intros id p r s. induction h as [|x h IH]; intros Hnone; [reflexivity|].
    rewrite updateProgress_cons, IH by (intros y Hy; apply Hnone; now right).
    rewrite decide_False by (apply Hnone; left). reflexivity.
  - intros id p1 r1 s1 p2 r2 s2. induction h as [|x h IH]; [reflexivity|].
    rewrite !updateProgress_cons, IH. f_equal.
    destruct (decide (HistoryItem.id x = id)) as [Hid|Hid]; cbn.
    + now rewrite decide_True.
    + now rewrite decide_False.
  - intros id1 id2 p1 r1 s1 p2 r2 s2 Hne.
    induction h as [|x h IH]; [reflexivity|].
    rewrite !updateProgress_cons, IH. f_equal.
    destruct (decide (HistoryItem.id x = id1)) as [H1|H1],
             (decide (HistoryItem.id x = id2)) as [H2|H2]; cbn;
      repeat case_decide; congruence.
Qed.

Lemma updateProgress_compose_witness :
  let other := HistoryItem.mk (lit "id-9") Sample.tokyo_text None
                 1700000000000 0 1 None in
  updateProgress (lit "id-7") 3.5 5 1.5 [other] = [other].
Proof.
  intros other.
  destruct (updateProgress_compose [other]) as [Hmissing _].
  apply Hmissing. intros x [-> | Hin]%elem_of_cons; [discriminate|].
  inversion Hin.
Defined.

Lemma filter_all {A} (P : A -> Prop) `{!forall x, Decision (P x)}
  (l : list A) :
  (forall x, x ∈ l -> P x) -> filter P l = l.
Proof.
  induction l as [|x l IH]; intros Hall; [reflexivity|].
  rewrite filter_cons_True by (apply Hall; left).
  f_equal. apply IH. intros y Hy. apply Hall. now right.
Qed.

Lemma updateProgress_ids id progress repeatMode playbackRate h :
  HistoryItem.id <$> updateProgress id progress repeatMode playbackRate h
  = HistoryItem.id <$> h.
Proof.
  induction h as [|x h IH]; [reflexivity|].
  rewrite updateProgress_cons. cbn. rewrite IH. f_equal.
  now destruct (decide (HistoryItem.id x = id)).
Qed.

(** X10.  Deleting by id removes every item with that id and no other
    item, keeps the order of the rest, and changes nothing when no item
    has the id; the active item and the audio are cleared exactly when the
    active item has the deleted id. *)
Theorem handleDeleteHistory_spec id (st : State) :
  let st' := handleDeleteHistory id st in
  (forall x, x ∈ history st' <-> x ∈ history st /\ HistoryItem.id x <> id)
  /\ history st' `sublist_of` history st
  /\ ((forall x, x ∈ history st -> HistoryItem.id x <> id) ->
      history st' = history st)
  /\ (forall item, activeItem st = Some item -> HistoryItem.id item = id ->
                   activeItem st' = None /\ audioUrl st' = None)
  /\ ((forall item, activeItem st = Some item -> HistoryItem.id item <> id) ->
      activeItem st' = activeItem st /\ audioUrl st' = audioUrl st)
  /\ inputText st' = inputText st
  /\ error st' = error st.
Proof.
  intros st'.
  assert (Hhist : history st' = deleteHistory id (history st)).
  { subst st'. unfold handleDeleteHistory.
    destruct (activeItem st) as [item|]; [|reflexivity].
    now destruct (decide (HistoryItem.id item = id)). }
  rewrite Hhist. unfold deleteHistory.
  split; [intros x; rewrite list_elem_of_filter; tauto|].
  split; [apply sublist_filter|].
  split.
  { intros Hnone. apply filter_all. exact Hnone. }
  subst st'. clear Hhist. unfold handleDeleteHistory.
  destruct st as [hist active url loading input sidebar err].
  cbn [activeItem audioUrl inputText error history].
  split; [|split].
  - intros item -> Hid. now rewrite decide_True by exact Hid.
  - intros Hother. destruct active as [item|]; [|split; reflexivity].
    rewrite decide_False by (apply Hother; reflexivity). split; reflexivity.
  - destruct active as [item|]; [|split; reflexivity].
    now destruct (decide (HistoryItem.id item = id)).
Qed.

(** X11.  Creating an item and deleting it again gives the history
    back: when no item has the submitted text and none has the generated
    id, [deleteHistory] of that id undoes [createOrUpdate]. *)
Theorem createOrUpdate_then_delete h inputText tokens now uuid :
  (forall x, x ∈ h -> HistoryItem.text x <> inputText) ->
  (forall x, x ∈ h -> HistoryItem.id x <> uuid) ->
  deleteHistory uuid (createOrUpdate h inputText tokens now uuid).2 = h.
Proof.
  intros Htext Hid.
  assert (Hfind : list_find (fun x => HistoryItem.text x = inputText) h = None)
    by (apply list_find_None, Forall_forall; exact Htext).
  rewrite (createOrUpdate_new _ _ _ _ _ Hfind). cbn [snd].
  unfold deleteHistory. rewrite filter_cons_False by (cbn; tauto).
  apply filter_all. exact Hid.
Qed.

Lemma createOrUpdate_then_delete_witness :
  deleteHistory (lit "id-2")
    (createOrUpdate [Sample.hundred] Sample.tokyo_text Sample.tokyo_tokens
       1700000060000 (lit "id-2")).2
  = [Sample.hundred].
Proof.
  apply createOrUpdate_then_delete.
  - intros x [-> | Hin]%elem_of_cons; [discriminate | inversion Hin].
  - intros x [-> | Hin]%elem_of_cons; [discriminate | inversion Hin].
Defined.

Lemma NoDup_fmap_filter {A B} (f : A -> B) (P : A -> Prop)
  `{!forall x, Decision (P x)} (l : list A) :
  NoDup (f <$> l) -> NoDup (f <$> filter P l).
Proof.
  induction l as [|x l IH]; intros Hnd; [exact Hnd|].
  cbn in Hnd. apply NoDup_cons in Hnd as [Hx Hnd].
  rewrite filter_cons. destruct (decide (P x)); [|auto].
  cbn. apply NoDup_cons. split; [|auto].
  intros (y & Hy & Hin)%list_elem_of_fmap.
  apply list_elem_of_filter in Hin as [_ Hin].
  apply Hx, list_elem_of_fmap. eauto.
Qed.

(** X12.  The ids of the store stay pairwise distinct under each of the
    three mutations, given that the id generated for a new item is the id
    of no item of the store. *)
Theorem ids_stay_distinct h :
  NoDup (HistoryItem.id <$> h) ->
  (forall inputText tokens now uuid,
     (forall x, x ∈ h -> HistoryItem.id x <> uuid) ->
     NoDup (HistoryItem.id
              <$> (createOrUpdate h inputText tokens now uuid).2))
  /\ (forall id progress repeatMode playbackRate,
        NoDup (HistoryItem.id
                 <$> updateProgress id progress repeatMode playbackRate h))
  /\ (forall id, NoDup (HistoryItem.id <$> deleteHistory id h)).
Proof.
  intros Hnd. split; [|split].
  - intros inputText tokens now uuid Hfresh.
    destruct (list_find (fun x => HistoryItem.text x = inputText) h)
      as [[i existing]|] eqn:Hfind.
    + rewrite (createOrUpdate_existing _ _ _ _ _ _ _ Hfind). cbn.
      apply list_find_Some in Hfind as (Hi & _ & _).
      rewrite list_fmap_delete. apply NoDup_cons. split.
      * apply NoDup_delete_not_elem_of; [exact Hnd|].
        now rewrite list_lookup_fmap, Hi.
      * eapply sublist_NoDup; [exact Hnd | apply sublist_delete].
    + rewrite (createOrUpdate_new _ _ _ _ _ Hfind). cbn.
      apply NoDup_cons. split; [|exact Hnd].
      intros (x & Hx & Hin)%list_elem_of_fmap.
      now apply (Hfresh x Hin).
  - intros id progress repeatMode playbackRate.
    now rewrite updateProgress_ids.
  - intros id. now apply NoDup_fmap_filter.
Qed.

Lemma ids_stay_distinct_witness :
  NoDup (HistoryItem.id
           <$> (createOrUpdate [Sample.hundred] Sample.tokyo_text [] 1700000060000
                  (lit "id-2")).2)
  /\ NoDup (HistoryItem.id <$> deleteHistory (lit "id-2") [Sample.hundred]).
Proof.
  destruct (ids_stay_distinct [Sample.hundred]) as (Hcreate & _ & Hdelete).
  - repeat constructor. intros Hin. inversion Hin.
  - split; [|apply Hdelete].
    apply Hcreate. intros x [-> | Hin]%elem_of_cons; [discriminate|].
    inversion Hin.
Defined.

(** X13.  In every store that the three mutations build from the empty
    one, no two items have the same text. *)
Theorem store_texts_distinct h :
  reachable h -> NoDup (HistoryItem.text <$> h).
Proof. apply reachable_NoDup. Qed.

Lemma store_texts_distinct_witness :
  NoDup (HistoryItem.text
           <$> deleteHistory (lit "id-3")
                 (updateProgress (lit "id-1") 3.5 5 1.5
                    (createOrUpdate
                       (createOrUpdate [] Sample.tokyo_text [] 1700000000000
                          (lit "id-1")).2
                       Sample.tokyo_text Sample.tokyo_tokens 1700000060000
                       (lit "id-2")).2)).
Proof.
  apply store_texts_distinct.
  apply reachable_deleteHistory, reachable_updateProgress,
    reachable_createOrUpdate, reachable_createOrUpdate, reachable_nil.
Defined.

(** X14.  Submitting again the text that was just submitted, in any
    store: the item at the front stays at the front with its id, position,
    repeat count and rate, its creation time becomes the time of the
    second call, its tokens become the new ones when there are any, the
    second generated id is not used, and the items behind it are
    untouched. *)
Theorem createOrUpdate_resubmit h inputText tokens1 tokens2 now1 now2
  uuid1 uuid2 :
  let r1 := createOrUpdate h inputText tokens1 now1 uuid1 in
  let r2 := createOrUpdate r1.2 inputText tokens2 now2 uuid2 in
  r2.2 = r2.1 :: tail r1.2
  /\ length r2.2 = length r1.2
  /\ HistoryItem.id r2.1 = HistoryItem.id r1.1
  /\ HistoryItem.text r2.1 = inputText
  /\ HistoryItem.createdAt r2.1 = now2
  /\ HistoryItem.tokens r2.1
     = (if 0 <? Z.of_nat (length tokens2) then Some tokens2
        else HistoryItem.tokens r1.1)
  /\ HistoryItem.lastPosition r2.1 = HistoryItem.lastPosition r1.1
  /\ HistoryItem.repeatMode r2.1 = HistoryItem.repeatMode r1.1
  /\ HistoryItem.playbackRate r2.1 = HistoryItem.playbackRate r1.1.
Proof.
  intros r1 r2.
  assert (Hfront : exists rest, r1.2 = r1.1 :: rest
                                /\ HistoryItem.text r1.1 = inputText).
  { subst r1.
    destruct (list_find (fun x => HistoryItem.text x = inputText) h)
      as [[i existing]|] eqn:Hfind.
    - rewrite (createOrUpdate_existing _ _ _ _ _ _ _ Hfind). cbn.
      apply list_find_Some in Hfind as (_ & Htext & _). eauto.
    - rewrite (createOrUpdate_new _ _ _ _ _ Hfind). cbn. eauto. }
  destruct Hfront as (rest & Hlist & Htext).
  assert (Hfind : list_find (fun x => HistoryItem.text x = inputText) r1.2
                  = Some (0%nat, r1.1)).
  { rewrite Hlist. apply list_find_Some. split; [reflexivity|].
    split; [exact Htext|]. intros j y _ Hj. lia. }
  subst r2. rewrite (createOrUpdate_existing _ _ _ _ _ _ _ Hfind).
  rewrite Hlist. cbn. rewrite Htext. repeat split.
Qed.

(** X15.  Selecting an item of the history never changes the history:
    it makes the item active and puts its text in the input; when the
    speech request fulfils the audio is set, and when it rejects the audio
    stays the one that was set before, the error message is set, and the
    message is not rendered as long as the item stays active. *)
Theorem handleSelectHistory_spec (item : HistoryItem.t) (st : State)
  (audioResult : PromiseSettledResult jsstring) :
  let st' := handleSelectHistory item st audioResult in
  history st' = history st
  /\ activeItem st' = Some item
  /\ inputText st' = HistoryItem.text item
  /\ isLoading st' = false
  /\ match audioResult with
     | fulfilled url => audioUrl st' = Some url /\ error st' = None
     | rejected _ =>
         audioUrl st' = audioUrl st
         /\ error st'
            = Some (lit "Could not restore audio. Try generating again.")
         /\ renderedError st' = None
         /\ renderedError (handleBackToInput st') = error st'
     end.
Proof.
  destruct st as [hist active url loading input sidebar err].
  destruct audioResult as [newUrl|message]; repeat split.
Qed.

Lemma filter_delete_other {A} (P : A -> Prop) `{!forall x, Decision (P x)}
  (l : list A) (i : nat) (x : A) :
  l !! i = Some x -> ~ P x -> filter P (delete i l) = filter P l.
Proof.
  intros Hi Hx. rewrite delete_take_drop.
  rewrite <- (take_drop_middle l i x Hi) at 3.
  rewrite !filter_app, filter_cons_False by exact Hx. reflexivity.
Qed.

(** X24.  [createOrUpdate] neither drops nor reorders the items with
    other texts, in any store: the items whose text is not the submitted
    one are the same, in the same order, before and after, and they come
    after the item returned. *)
Theorem createOrUpdate_keeps_others h inputText tokens now uuid :
  let r := createOrUpdate h inputText tokens now uuid in
  filter (fun x => HistoryItem.text x <> inputText) r.2
  = filter (fun x => HistoryItem.text x <> inputText) h
  /\ head r.2 = Some r.1
  /\ HistoryItem.text r.1 = inputText
  /\ (length h <= length r.2 <= S (length h))%nat.
Proof.
  intros r. subst r.
  destruct (list_find (fun x => HistoryItem.text x = inputText) h)
    as [[i existing]|] eqn:Hfind.
  - rewrite (createOrUpdate_existing _ _ _ _ _ _ _ Hfind). cbn [fst snd head].
    apply list_find_Some in Hfind as (Hi & Htext & _).
    split; [|split; [reflexivity|split; [exact Htext|]]].
    + rewrite filter_cons_False by (cbn; tauto).
      apply (filter_delete_other _ h i existing Hi). tauto.
    + cbn [length]. rewrite length_delete by (rewrite Hi; eauto).
      apply lookup_lt_Some in Hi. lia.
  - rewrite (createOrUpdate_new _ _ _ _ _ Hfind). cbn [fst snd head].
    split; [|split; [reflexivity|split; [reflexivity|cbn [length]; lia]]].
    rewrite filter_cons_False by (cbn; tauto). reflexivity.
Qed.

Lemma trimStart_nil_iff (s : jsstring) :
  trimStart s = [] <-> Forall (fun c => isWhiteSpace c = true) s.
Proof.
  induction s as [|c r IH]; [split; [constructor | reflexivity]|].
  cbn [trimStart]. destruct (isWhiteSpace c) eqn:Hc.
  - rewrite IH. split; [now constructor | now inversion 1].
  - split; [discriminate | inversion 1; congruence].
Qed.

Lemma trimStart_split (s : jsstring) :
  exists ws, Forall (fun c => isWhiteSpace c = true) ws
             /\ s = ws ++ trimStart s.
Proof.
  induction s as [|c r (ws & Hws & Hr)]; [exists []; split; [constructor | reflexivity]|].
  cbn [trimStart]. destruct (isWhiteSpace c) eqn:Hc.
  - exists (c :: ws). split; [now constructor | cbn; congruence].
  - exists []. split; [constructor | reflexivity].
Qed.

Lemma trim_nil_iff (s : jsstring) :
  trim s = [] <-> Forall (fun c => isWhiteSpace c = true) s.
Proof.
  unfold trim. split.
  - intros Hnil.
    assert (Hrev : trimStart (rev (trimStart s)) = []).
    { apply (f_equal (@rev _)) in Hnil. now rewrite rev_involutive in Hnil. }
    apply trimStart_nil_iff in Hrev.
    destruct (trimStart_split s) as (ws & Hws & Hs). rewrite Hs.
    apply Forall_app. split; [exact Hws|].
    rewrite Forall_forall in Hrev |- *. intros c Hc.
    apply Hrev, list_elem_of_In, in_rev. rewrite rev_involutive.
    now apply list_elem_of_In.
  - intros Hall. apply trimStart_nil_iff in Hall. now rewrite Hall.
Qed.

(** X16.  [handleGenerate] does nothing at all when the input is empty
    or consists of white space only; for any other input the request is
    carried out.  Afterwards nothing is loading.  The audio is the
    generated one when the speech promise fulfilled, unless the analysis
    returned [null] for a text that the history holds already; in that
    case, and when the speech promise rejected, there is no audio and an
    error message is set. *)
Theorem handleGenerate_guard (st : State)
  (audioResult : PromiseSettledResult jsstring)
  (tokensResult : PromiseSettledResult Parsed)
  (typeErrorMessage : jsstring) (now : Z) (uuid : jsstring) :
  let st' := handleGenerate st audioResult tokensResult typeErrorMessage
               now uuid in
  (Forall (fun c => isWhiteSpace c = true) (inputText st) -> st' = st)
  /\ (Exists (fun c => isWhiteSpace c = false) (inputText st) ->
      isLoading st' = false
      /\ audioUrl st'
         = match audioResult with
           | fulfilled url =>
               match tokensResult,
                     list_find (fun x => HistoryItem.text x = inputText st)
                       (history st) with
               | fulfilled JsonNull, Some _ => None
               | _, _ => Some url
               end
           | rejected _ => None
           end
      /\ (audioUrl st' = None ->
          exists msg, error st' = Some msg /\ msg <> [])).
Proof.
  intros st'. subst st'. unfold handleGenerate, handleGenerate_start. split.
  - intros Hblank%trim_nil_iff. now rewrite Hblank.
  - intros Hsome.
    destruct (trim (inputText st)) as [|c r] eqn:Htrim.
    + apply trim_nil_iff in Htrim. apply Exists_exists in Hsome as (c & Hin & Hc).
      rewrite Forall_forall in Htrim. rewrite (Htrim c Hin) in Hc. discriminate.
    + cbn [falsy].
      set (st1 := setAudioUrl None (setError None (setIsLoading true st))).
      assert (Hcatch : forall message,
                let st' := handleGenerate_catch message st1 in
                isLoading st' = false /\ audioUrl st' = None
                /\ (audioUrl st' = None ->
                    exists msg, error st' = Some msg /\ msg <> [])).
      { intros message.
        destruct (handleGenerate_catch_spec message st1)
          as ((msg & Herr & Hne & _) & _ & _ & Hurl & Hloading).
        cbn zeta. split; [exact Hloading|]. split; [exact Hurl|].
        intros _. exists msg. split; assumption. }
      assert (Hdone : forall url tokens,
                let r := createOrUpdate (history st) (inputText st) tokens
                           now uuid in
                let st' := setIsLoading false
                             (setAudioUrl (Some url)
                                (setActiveItem (Some r.1)
                                   (setHistory r.2 st1))) in
                isLoading st' = false /\ audioUrl st' = Some url
                /\ (audioUrl st' = None ->
                    exists msg, error st' = Some msg /\ msg <> [])).
      { intros url tokens. cbn. repeat split. discriminate. }
      destruct audioResult as [url|message].
      2:{ rewrite handleGenerate_settled_rejected. apply Hcatch. }
      unfold handleGenerate_settled, createOrUpdate_unchecked.
      destruct tokensResult as [[tokens|]|message].
      * destruct (createOrUpdate (history st) (inputText st) tokens now uuid)
          as [newItem newHist] eqn:Hr.
        specialize (Hdone url tokens). rewrite Hr in Hdone.
        exact Hdone.
      * destruct (list_find (fun x => HistoryItem.text x = inputText st)
                    (history st)) as [[i existing]|];
          [apply Hcatch|].
        cbn. repeat split. discriminate.
      * destruct (createOrUpdate (history st) (inputText st) [] now uuid)
          as [newItem newHist] eqn:Hr.
        specialize (Hdone url []). rewrite Hr in Hdone.
        exact Hdone.
Qed.

Lemma handleGenerate_guard_witness :
  let blank := mkState [] None (Some (lit "blob:old")) false
                 [32; 12288; 10]%N false None in
  handleGenerate blank (fulfilled (lit "blob:new")) (fulfilled (JsonTokens []))
    (lit "tokens is null") 1700000060000 (lit "id-2") = blank.
Proof.
  intros blank.
  destruct (handleGenerate_guard blank (fulfilled (lit "blob:new"))
              (fulfilled (JsonTokens [])) (lit "tokens is null")
              1700000060000 (lit "id-2")) as [Hblank _].
  apply Hblank. repeat constructor.
Defined.

End HistoryMutations.

(** ** More on the playback controller *)

Section PlaybackRuns.
Import Player.

(** A positive number is truthy, so [x || d] is [x]. *)
Lemma num_or_positive (x d : float) :
  PrimFloat.ltb 0 x = true -> num_or x d = x.
Proof.
  intros Hpos. unfold num_or. rewrite (positive_not_zero x Hpos).
  assert (Hrefl : PrimFloat.eqb x x = true).
  { rewrite FloatAxioms.ltb_spec in Hpos. rewrite FloatAxioms.eqb_spec.
    destruct (Prim2SF x) as [[]|[]| |[] m e]; cbn in Hpos |- *;
      try discriminate; try reflexivity.
    unfold SFeqb, SFcompare. rewrite Z.compare_refl.
    now rewrite Pos.compare_cont_refl. }
  now rewrite Hrefl.
Qed.

(** The element after a seek to 0, field by field. *)
Lemma seek_zero_eq (a : Audio.t) :
  Audio.seek 0 a
  = Audio.mk 0 (Audio.duration a) (Audio.paused a) (Audio.playbackRate a).
Proof.
  rewrite <- (seek_zero a) at 2. reflexivity.
Qed.

Lemma handleEnded_restart (st : State) (a : Audio.t) :
  audioRef st = Some a -> currentRepeatCount st < repeatMode st ->
  handleEnded st
  = audio_play (Audio.seek 0 a)
      (setCurrentRepeatCount (currentRepeatCount st + 1) st).
Proof.
  intros Ha Hlt. unfold handleEnded.
  rewrite (proj2 (Z.ltb_lt _ _) Hlt).
  cbn [audioRef setCurrentRepeatCount]. now rewrite Ha, set_currentTime_zero.
Qed.

Lemma handleEnded_stop (st : State) (a : Audio.t) :
  audioRef st = Some a -> repeatMode st <= currentRepeatCount st ->
  handleEnded st
  = setAudio (Some (Audio.seek 0 a))
      (setCurrentRepeatCount 1 (setIsPlaying false st)).
Proof.
  intros Ha Hge. unfold handleEnded.
  rewrite (proj2 (Z.ltb_ge _ _) Hge).
  cbn [audioRef setCurrentRepeatCount setIsPlaying].
  now rewrite Ha, set_currentTime_zero.
Qed.

(** After [j] ends of playback out of [n + 1] configured ones. *)
Lemma handleEnded_iter (st : State) (a : Audio.t) (n j : nat) :
  audioRef st = Some a -> currentRepeatCount st = 1 ->
  repeatMode st = Z.of_nat (S n) -> (j <= n)%nat ->
  let stj := Nat.iter j handleEnded st in
  currentRepeatCount stj = 1 + Z.of_nat j
  /\ repeatMode stj = repeatMode st
  /\ exists aj, audioRef stj = Some aj
                /\ ((1 <= j)%nat ->
                    aj = Audio.play (Audio.seek 0 aj)
                    /\ isPlaying stj = true).
Proof.
  intros Ha Hone Hmode. cbn zeta. induction j as [|j IH]; intros Hj.
  - cbn. split; [lia|]. split; [reflexivity|]. exists a. split; [exact Ha|lia].
  - destruct (IH ltac:(lia)) as (Hcount & Hrep & aj & Haj & _).
    change (Nat.iter (S j) handleEnded st)
      with (handleEnded (Nat.iter j handleEnded st)).
    rewrite (handleEnded_restart _ aj Haj) by lia.
    rewrite !seek_zero_eq.
    cbn. split; [lia|]. split; [exact Hrep|].
    eexists. split; [reflexivity|]. intros _.
    rewrite !seek_zero_eq. split; reflexivity.
Qed.

(** X17.  With a repeat count of [n + 1] and the counter at 1, the
    audio is played [n + 1] times: each of the first [n] ends of playback
    restarts the element at 0 and counts one iteration more, and the next
    end stops, seeks to 0 and puts the counter back to 1, with the repeat
    count unchanged throughout. *)
Theorem handleEnded_plays_all_iterations (st : State) (a : Audio.t) (n : nat) :
  audioRef st = Some a -> currentRepeatCount st = 1 ->
  repeatMode st = Z.of_nat (S n) ->
  (forall j, (1 <= j <= n)%nat ->
     let stj := Nat.iter j handleEnded st in
     currentRepeatCount stj = 1 + Z.of_nat j
     /\ isPlaying stj = true
     /\ Audio.paused <$> audioRef stj = Some false
     /\ Audio.currentTime <$> audioRef stj = Some 0%float)
  /\ (let stn := Nat.iter (S n) handleEnded st in
      currentRepeatCount stn = 1
      /\ isPlaying stn = false
      /\ Audio.currentTime <$> audioRef stn = Some 0%float
      /\ repeatMode stn = repeatMode st).
Proof.
  intros Ha Hone Hmode. split.
  - intros j [Hj1 Hjn].
    destruct (handleEnded_iter st a n j Ha Hone Hmode Hjn)
      as (Hcount & _ & aj & Haj & Hplayed).
    destruct (Hplayed Hj1) as [Hagain Hplaying].
    cbn zeta. rewrite Haj, Hagain, seek_zero_eq. repeat split; assumption.
  - destruct (handleEnded_iter st a n n Ha Hone Hmode (le_n n))
      as (Hcount & Hrep & an & Han & _).
    cbn zeta.
    change (Nat.iter (S n) handleEnded st)
      with (handleEnded (Nat.iter n handleEnded st)).
    rewrite (handleEnded_stop _ an Han) by lia. rewrite seek_zero_eq.
    repeat split. exact Hrep.
Qed.

Lemma handleEnded_plays_all_iterations_witness :
  let st := setRepeatMode 10 (Sample.loaded Sample.tokyo 8 8) in
  currentRepeatCount (Nat.iter 9 handleEnded st) = 10
  /\ isPlaying (Nat.iter 9 handleEnded st) = true
  /\ currentRepeatCount (Nat.iter 10 handleEnded st) = 1
  /\ isPlaying (Nat.iter 10 handleEnded st) = false.
Proof.
  intros st.
  destruct (handleEnded_plays_all_iterations st (Audio.mk 8 8 true 1) 9
              eq_refl eq_refl eq_refl) as [Hruns (Hcount & Hstop & _)].
  destruct (Hruns 9%nat ltac:(lia)) as (Hlast & Hplaying & _).
  repeat split; assumption.
Defined.

(** X18.  [togglePlay] does nothing without a mounted element or
    without an audio URL.  With both it flips the playing flag, pauses a
    playing element or plays a paused one, and leaves the position, the
    duration and the repeat settings alone; when the flag and the element
    agree, toggling twice gives the same state back. *)
Theorem togglePlay_spec (props : Props) (st : State) :
  (audioRef st = None \/ audioUrl props = None \/ audioUrl props = Some [] ->
   togglePlay props st = st)
  /\ (forall a url,
        audioRef st = Some a -> audioUrl props = Some url -> url <> [] ->
        let st' := togglePlay props st in
        isPlaying st' = negb (isPlaying st)
        /\ audioRef st'
           = Some (if isPlaying st then Audio.pause a else Audio.play a)
        /\ currentTime st' = currentTime st
        /\ duration st' = duration st
        /\ repeatMode st' = repeatMode st
        /\ currentRepeatCount st' = currentRepeatCount st
        /\ (Audio.paused a = negb (isPlaying st) ->
            togglePlay props st' = st)).
Proof.
  split.
  - unfold togglePlay. intros [Hnone | [Hnone | Hempty]].
    + now rewrite Hnone.
    + rewrite Hnone. now destruct (audioRef st).
    + rewrite Hempty. now destruct (audioRef st).
  - intros a url Ha Hurl Hne st'. subst st'. unfold togglePlay.
    rewrite Ha, Hurl. destruct url as [|c r]; [now destruct Hne|].
    cbn [falsy].
    destruct st as [ref playing time dur mode rate count rmenu smenu].
    cbn in Ha. subst ref. destruct a as [atime adur apaused arate].
    destruct playing; cbn; repeat split; intros ->; reflexivity.
Qed.

Lemma togglePlay_spec_witness :
  let props := Sample.props Sample.tokyo in
  let st := Sample.loaded Sample.tokyo 8 0 in
  isPlaying (togglePlay props st) = true
  /\ Audio.paused <$> audioRef (togglePlay props st) = Some false
  /\ togglePlay props (togglePlay props st) = st
  /\ togglePlay (mkProps Sample.tokyo None) st = st.
Proof.
  intros props st.
  destruct (togglePlay_spec props st) as [_ Hloaded].
  destruct (togglePlay_spec (mkProps Sample.tokyo None) st) as [Hnone _].
  destruct (Hloaded (Audio.mk 0 8 true 1) (lit "blob:audio") eq_refl eq_refl)
    as (Hplaying & Href & _ & _ & _ & _ & Htwice).
  - discriminate.
  - split; [exact Hplaying|]. split; [now rewrite Href|].
    split; [exact (Htwice eq_refl)|].
    apply Hnone. right. left. reflexivity.
Defined.

(** The second effect of the mount, after the first has assigned the
    same rate: it assigns it again and reports the values of the first
    render. *)
Lemma mount_accepted (rateSupported : float -> bool) (props : Props)
  (a : Audio.t) :
  let lastPosition := HistoryItem.lastPosition (activeItem props) in
  let st0 := init props in
  (PrimFloat.ltb 0 lastPosition = true ->
   PrimFloat.is_finite lastPosition = true) ->
  PrimFloat.is_finite (playbackRate st0) = true ->
  rateSupported (playbackRate st0) = true ->
  mount rateSupported props a
  = Normal
      (let a1 := if PrimFloat.ltb 0 lastPosition
                 then Audio.seek lastPosition a else a in
       let st1 := if PrimFloat.ltb 0 lastPosition
                  then setCurrentTime lastPosition st0 else st0 in
       setAudio
         (Some (Audio.mk (Audio.currentTime a1) (Audio.duration a1)
                  (Audio.paused a1) (playbackRate st0))) st1,
       [mkProgressUpdate (HistoryItem.id (activeItem props)) (currentTime st0)
          (repeatMode st0) (playbackRate st0)]).
Proof.
  intros lastPosition st0 Hpos Hrate Hsupported.
  unfold mount, restoreOnLoad, playbackRateEffect.
  cbn [audioRef setAudio playbackRate currentTime repeatMode].
  fold lastPosition st0.
  unfold Audio.set_currentTime, Audio.set_playbackRate.
  destruct (PrimFloat.ltb 0 lastPosition) eqn:Hlt.
  - rewrite (Hpos eq_refl). cbn [bind]. rewrite Hrate, Hsupported.
    reflexivity.
  - cbn [bind]. rewrite Hrate, Hsupported. reflexivity.
Qed.

(** X19.  A player mounted on an item whose saved position and rate
    the element accepts resumes it: with a saved position greater than 0
    the displayed time is that position and the element has sought to it,
    arriving there unless it lies beyond the end of media that are loaded
    already; otherwise the element is not sought; the element plays at
    the rate of the player, nothing is playing yet, the iteration counter
    is 1 and the duration is still unknown.  A saved position that is
    infinite, or a rate that is infinite or that the user agent does not
    support, makes an effect of the mount throw. *)
Theorem mount_resumes (rateSupported : float -> bool) (props : Props)
  (a : Audio.t) :
  let lastPosition := HistoryItem.lastPosition (activeItem props) in
  let rate := playbackRate (init props) in
  let position_accepted :=
    PrimFloat.ltb 0 lastPosition = true ->
    PrimFloat.is_finite lastPosition = true in
  (position_accepted -> PrimFloat.is_finite rate = true ->
   rateSupported rate = true ->
   exists st updates,
     mount rateSupported props a = Normal (st, updates)
     /\ (PrimFloat.ltb 0 lastPosition = true ->
         currentTime st = lastPosition
         /\ audioRef st
            = Some (Audio.mk (Audio.currentTime (Audio.seek lastPosition a))
                      (Audio.duration a) (Audio.paused a) rate)
         /\ (PrimFloat.ltb (Audio.duration a) lastPosition = false ->
             Audio.currentTime <$> audioRef st = Some lastPosition))
     /\ (PrimFloat.ltb 0 lastPosition = false ->
         Audio.currentTime <$> audioRef st = Some (Audio.currentTime a))
     /\ Audio.playbackRate <$> audioRef st = Some (playbackRate st)
     /\ playbackRate st = rate
     /\ Audio.paused <$> audioRef st = Some (Audio.paused a)
     /\ isPlaying st = false
     /\ currentRepeatCount st = 1
     /\ PrimFloat.eqb (duration st) 0 = true)
  /\ (PrimFloat.ltb 0 lastPosition = true ->
      PrimFloat.is_finite lastPosition = false ->
      mount rateSupported props a = Throw TypeError)
  /\ (position_accepted -> PrimFloat.is_finite rate = false ->
      mount rateSupported props a = Throw TypeError)
  /\ (position_accepted -> PrimFloat.is_finite rate = true ->
      rateSupported rate = false ->
      mount rateSupported props a = Throw NotSupportedError).
Proof.
  intros lastPosition rate position_accepted. subst position_accepted.
  split; [|split; [|split]].
  - intros Hpos Hrate Hsupported.
    rewrite (mount_accepted rateSupported props a Hpos Hrate Hsupported).
    fold lastPosition. eexists _, _. split; [reflexivity|].
    destruct (PrimFloat.ltb 0 lastPosition) eqn:Hlt.
    + split.
      { intros _. split; [reflexivity|]. split; [reflexivity|].
        intros Hend. cbn [audioRef setAudio fmap option_fmap option_map
                          Audio.currentTime].
        rewrite seek_within;
          [reflexivity | exact Hend | now apply positive_not_negative]. }
      split; [discriminate|]. repeat split.
    + split; [discriminate|]. split; [intros _; reflexivity|]. repeat split.
  - intros Hlt Hinf. unfold mount, restoreOnLoad.
    cbn [audioRef setAudio]. fold lastPosition. rewrite Hlt.
    unfold Audio.set_currentTime. now rewrite Hinf.
  - intros Hpos Hrate. unfold mount, restoreOnLoad.
    cbn [audioRef setAudio playbackRate]. fold lastPosition rate.
    unfold Audio.set_currentTime, Audio.set_playbackRate.
    destruct (PrimFloat.ltb 0 lastPosition) eqn:Hlt.
    + rewrite (Hpos eq_refl). cbn [bind]. now rewrite Hrate.
    + cbn [bind]. now rewrite Hrate.
  - intros Hpos Hrate Hsupported. unfold mount, restoreOnLoad.
    cbn [audioRef setAudio playbackRate]. fold lastPosition rate.
    unfold Audio.set_currentTime, Audio.set_playbackRate.
    destruct (PrimFloat.ltb 0 lastPosition) eqn:Hlt.
    + rewrite (Hpos eq_refl). cbn [bind]. now rewrite Hrate, Hsupported.
    + cbn [bind]. now rewrite Hrate, Hsupported.
Qed.

Lemma mount_resumes_witness :
  let item := HistoryItem.mk (lit "id-1") Sample.tokyo_text None
                1700000000000 3.5 5 (Some 1.5%float) in
  exists st updates,
    mount Sample.rateSupported (Sample.props item) (Audio.mk 0 nan true 1)
    = Normal (st, updates)
    /\ currentTime st = 3.5%float
    /\ Audio.currentTime <$> audioRef st = Some 3.5%float
    /\ Audio.playbackRate <$> audioRef st = Some 1.5%float.
Proof.
  intros item.
  destruct (mount_resumes Sample.rateSupported (Sample.props item)
              (Audio.mk 0 nan true 1))
    as ((st & updates & Hmount & Hresume & _ & Hrate & Hst & _) & _).
  - reflexivity.
  - reflexivity.
  - reflexivity.
  - destruct (Hresume eq_refl) as (Htime & _ & Hseek).
    exists st, updates. split; [exact Hmount|]. split; [exact Htime|].
    split; [exact (Hseek eq_refl)|]. now rewrite Hrate, Hst.
Defined.

(** The click on a speed other than the current one that the element
    accepts, and on the current one. *)
Lemma speedMenu_onClick_accepted (rateSupported : float -> bool)
  (props : Props) (st : State) (a : Audio.t) (speed : float) :
  audioRef st = Some a -> speed <> playbackRate st ->
  PrimFloat.is_finite speed = true -> rateSupported speed = true ->
  speedMenu_onClick rateSupported props st speed
  = Normal
      (setAudio
         (Some (Audio.mk (Audio.currentTime a) (Audio.duration a)
                  (Audio.paused a) speed))
         (setShowSpeedMenu false (setPlaybackRate speed st)),
       [mkProgressUpdate (HistoryItem.id (activeItem props)) (currentTime st)
          (repeatMode st) speed]).
Proof.
  intros Ha Hne Hfinite Hsupported. unfold speedMenu_onClick.
  destruct (PrimFloat.Leibniz.eqb (playbackRate st) speed) eqn:Hsame.
  { apply FloatAxioms.Leibniz.eqb_spec in Hsame. congruence. }
  unfold playbackRateEffect, Audio.set_playbackRate.
  cbn [audioRef playbackRate currentTime repeatMode setShowSpeedMenu
       setPlaybackRate].
  now rewrite Ha, Hfinite, Hsupported.
Qed.

Lemma speedMenu_onClick_same (rateSupported : float -> bool) (props : Props)
  (st : State) :
  speedMenu_onClick rateSupported props st (playbackRate st)
  = Normal (setShowSpeedMenu false (setPlaybackRate (playbackRate st) st), []).
Proof.
  unfold speedMenu_onClick.
  now rewrite (proj2 (FloatAxioms.Leibniz.eqb_spec _ _) eq_refl).
Qed.

(** X20.  Choosing the speed that is already set only closes the menu.
    Choosing another speed that the element accepts sets the rate of the
    player and of the element at once and reports it to the history,
    without touching the position, the playing state or the repeat
    settings.  Another speed that is not finite, or that the user agent
    does not support, makes the effect throw; the speeds of the menu are
    all finite. *)
Theorem speedMenu_onClick_spec (rateSupported : float -> bool) (props : Props)
  (st : State) (a : Audio.t) (speed : float) :
  audioRef st = Some a ->
  (speed = playbackRate st
   \/ (PrimFloat.is_finite speed = true /\ rateSupported speed = true) ->
   exists st' updates,
     speedMenu_onClick rateSupported props st speed = Normal (st', updates)
     /\ playbackRate st' = speed
     /\ showSpeedMenu st' = false
     /\ isPlaying st' = isPlaying st
     /\ currentTime st' = currentTime st
     /\ repeatMode st' = repeatMode st
     /\ currentRepeatCount st' = currentRepeatCount st
     /\ (speed <> playbackRate st ->
         audioRef st'
         = Some (Audio.mk (Audio.currentTime a) (Audio.duration a)
                   (Audio.paused a) speed)
         /\ updates = [mkProgressUpdate (HistoryItem.id (activeItem props))
                         (currentTime st) (repeatMode st) speed])
     /\ (speed = playbackRate st -> audioRef st' = Some a /\ updates = []))
  /\ (speed <> playbackRate st -> PrimFloat.is_finite speed = false ->
      speedMenu_onClick rateSupported props st speed = Throw TypeError)
  /\ (speed <> playbackRate st -> PrimFloat.is_finite speed = true ->
      rateSupported speed = false ->
      speedMenu_onClick rateSupported props st speed
      = Throw NotSupportedError)
  /\ (speed ∈ PLAYBACK_SPEEDS -> PrimFloat.is_finite speed = true).
Proof.
  intros Ha.
  assert (Hother : speed <> playbackRate st ->
            PrimFloat.Leibniz.eqb (playbackRate st) speed = false).
  { intros Hne.
    destruct (PrimFloat.Leibniz.eqb (playbackRate st) speed) eqn:Hsame;
      [|reflexivity].
    apply FloatAxioms.Leibniz.eqb_spec in Hsame. congruence. }
  split; [|split; [|split]].
  4:{ unfold PLAYBACK_SPEEDS. intros Hin.
      repeat (apply elem_of_cons in Hin as [-> | Hin]; [reflexivity|]).
      inversion Hin. }
  - intros Haccepted.
    destruct (PrimFloat.Leibniz.eqb (playbackRate st) speed) eqn:Hsame.
    + apply FloatAxioms.Leibniz.eqb_spec in Hsame. subst speed.
      rewrite speedMenu_onClick_same. eexists _, _. split; [reflexivity|].
      repeat (split; [reflexivity|]).
      split; [congruence|]. intros _. split; [exact Ha | reflexivity].
    + assert (Hne : speed <> playbackRate st).
      { intros Heq. apply eq_sym, FloatAxioms.Leibniz.eqb_spec in Heq.
        congruence. }
      destruct Haccepted as [Heq | [Hfinite Hsupported]]; [contradiction|].
      rewrite (speedMenu_onClick_accepted rateSupported props st a speed
                 Ha Hne Hfinite Hsupported).
      eexists _, _. split; [reflexivity|].
      repeat (split; [reflexivity|]).
      split; [intros _; split; reflexivity | contradiction].
  - intros Hne Hfinite. unfold speedMenu_onClick. rewrite (Hother Hne).
    unfold playbackRateEffect, Audio.set_playbackRate.
    cbn [audioRef playbackRate setShowSpeedMenu setPlaybackRate].
    now rewrite Ha, Hfinite.
  - intros Hne Hfinite Hsupported. unfold speedMenu_onClick.
    rewrite (Hother Hne).
    unfold playbackRateEffect, Audio.set_playbackRate.
    cbn [audioRef playbackRate setShowSpeedMenu setPlaybackRate].
    now rewrite Ha, Hfinite, Hsupported.
Qed.

Lemma speedMenu_onClick_spec_witness :
  let props := Sample.props Sample.tokyo in
  let st := Sample.loaded Sample.tokyo 8 3.5 in
  (exists st' updates,
     speedMenu_onClick Sample.rateSupported props st 1.5 = Normal (st', updates)
     /\ Audio.playbackRate <$> audioRef st' = Some 1.5%float
     /\ Audio.currentTime <$> audioRef st' = Some 3.5%float
     /\ updates = [mkProgressUpdate (HistoryItem.id Sample.tokyo) 3.5 1 1.5])
  /\ (exists st', speedMenu_onClick Sample.rateSupported props st 1
                  = Normal (st', []))
  /\ speedMenu_onClick Sample.rateSupported props st 32
     = Throw NotSupportedError.
Proof.
  intros props st.
  assert (Hne : forall x y : float, Prim2SF x <> Prim2SF y -> x <> y)
    by (intros x y Hsf ->; now apply Hsf).
  destruct (speedMenu_onClick_spec Sample.rateSupported props st
              (Audio.mk 3.5 8 true 1) 1.5 eq_refl)
    as ((st' & updates & Hclick & _ & _ & _ & _ & _ & _ & Hother & _) & _).
  { right. split; reflexivity. }
  destruct (speedMenu_onClick_spec Sample.rateSupported props st
              (Audio.mk 3.5 8 true 1) 1 eq_refl)
    as ((st1 & updates1 & Hclick1 & _ & _ & _ & _ & _ & _ & _ & Hsame) & _).
  { left. reflexivity. }
  destruct (speedMenu_onClick_spec Sample.rateSupported props st
              (Audio.mk 3.5 8 true 1) 32 eq_refl) as (_ & _ & Hrefused & _).
  destruct Hother as [Href Hupdates].
  { apply Hne. vm_compute. discriminate. }
  destruct (Hsame eq_refl) as [_ Hnone].
  split; [|split].
  - exists st', updates. split; [exact Hclick|]. rewrite Href.
    repeat split. exact Hupdates.
  - exists st1. now rewrite Hclick1, Hnone.
  - apply Hrefused; [|reflexivity..].
    apply Hne. vm_compute. discriminate.
Defined.

Lemma timeupdates_cons (props : Props) (st : State) (a : Audio.t)
  (time : float) (later : list float) :
  audioRef st = Some a ->
  timeupdates props st (time :: later)
  = (if floor_is_even time
     then [mkProgressUpdate (HistoryItem.id (activeItem props)) time
             (repeatMode st) (playbackRate st)]
     else [])
    ++ timeupdates props
         (setCurrentTime time (setAudio (Some (Audio.at_time time a)) st))
         later.
Proof.
  intros Ha. cbn [timeupdates]. rewrite Ha. cbn [fmap option_fmap option_map].
  unfold handleTimeUpdate. cbn [audioRef setAudio Audio.currentTime
                                 Audio.at_time].
  now destruct (floor_is_even time).
Qed.

(** X21.  While the mounted player follows the media through a sequence
    of [timeupdate] events, the positions reported to the history are
    exactly the tick times whose integer part is even, in order, each with
    the id of the active item and the repeat count and rate of the
    player. *)
Theorem timeupdates_reports (props : Props) (st : State) (a : Audio.t)
  (times : list float) :
  audioRef st = Some a ->
  timeupdates props st times
  = map (fun time =>
           mkProgressUpdate (HistoryItem.id (activeItem props)) time
             (repeatMode st) (playbackRate st))
      (filter (fun time => floor_is_even time = true) times).
Proof.
  revert st a. induction times as [|time later IH]; intros st a Ha;
    [reflexivity|].
  rewrite (timeupdates_cons props st a time later Ha).
  rewrite (IH (setCurrentTime time
                 (setAudio (Some (Audio.at_time time a)) st))
             (Audio.at_time time a) eq_refl).
  rewrite filter_cons. cbn [repeatMode playbackRate setCurrentTime setAudio].
  destruct (floor_is_even time) eqn:Heven.
  - now rewrite decide_True.
  - now rewrite decide_False by discriminate.
Qed.

Lemma timeupdates_reports_witness :
  pu_progress
    <$> timeupdates (Sample.props Sample.tokyo) (Sample.loaded Sample.tokyo 8 0)
          [0.5; 1.5; 2.25; 2.5; 3; 4.75]%float
  = [0.5; 2.25; 2.5; 4.75]%float.
Proof.
  rewrite (timeupdates_reports (Sample.props Sample.tokyo)
             (Sample.loaded Sample.tokyo 8 0) (Audio.mk 0 8 true 1)
             [0.5; 1.5; 2.25; 2.5; 3; 4.75]%float eq_refl).
  reflexivity.
Defined.

End PlaybackRuns.

(** ** The player's reports in the history store *)

Section PlayerReports.
Import Player.

Lemma updateProgress_lookup id progress repeatMode playbackRate
  (h : list HistoryItem.t) (i : nat) (x : HistoryItem.t) :
  h !! i = Some x -> HistoryItem.id x = id ->
  App.updateProgress id progress repeatMode playbackRate h !! i
  = Some (HistoryItem.mk (HistoryItem.id x) (HistoryItem.text x)
            (HistoryItem.tokens x) (HistoryItem.createdAt x)
            progress repeatMode (Some playbackRate)).
Proof.
  intros Hi Hid. unfold App.updateProgress.
  rewrite lookup_map, Hi. cbn. now rewrite decide_True.
Qed.

(** X22.  A choice in the repeat menu, or in the speed menu of another
    speed that the element accepts, reaches the store: the item of the
    history with the id of the active item holds the chosen value
    afterwards, with the time and the other setting of the player, at the
    place where it was, and its id, text, tokens and creation time as
    before; the active item of the application is not replaced. *)
Theorem settings_reach_the_store (rateSupported : float -> bool)
  (props : Props) (st : State) (a : Audio.t)
  (app : App.State) (i : nat) (x : HistoryItem.t) :
  audioRef st = Some a ->
  App.history app !! i = Some x ->
  HistoryItem.id x = HistoryItem.id (activeItem props) ->
  (forall count,
     let app' := App.onUpdateProgress_all
                   (repeatMenu_onClick props st count).2 app in
     App.history app' !! i
     = Some (HistoryItem.mk (HistoryItem.id x) (HistoryItem.text x)
               (HistoryItem.tokens x) (HistoryItem.createdAt x)
               (currentTime st) count (Some (playbackRate st)))
     /\ length (App.history app') = length (App.history app)
     /\ App.activeItem app' = App.activeItem app)
  /\ (forall speed, speed <> playbackRate st ->
        PrimFloat.is_finite speed = true -> rateSupported speed = true ->
        exists st' updates,
          speedMenu_onClick rateSupported props st speed
          = Normal (st', updates)
          /\ let app' := App.onUpdateProgress_all updates app in
             App.history app' !! i
             = Some (HistoryItem.mk (HistoryItem.id x) (HistoryItem.text x)
                       (HistoryItem.tokens x) (HistoryItem.createdAt x)
                       (currentTime st) (repeatMode st) (Some speed))
             /\ length (App.history app') = length (App.history app)
             /\ App.activeItem app' = App.activeItem app).
Proof.
  intros Ha Hi Hid. split.
  - intros count. cbn.
    split; [now apply updateProgress_lookup|].
    split; [apply length_map | reflexivity].
  - intros speed Hne Hfinite Hsupported.
    rewrite (speedMenu_onClick_accepted rateSupported props st a speed
               Ha Hne Hfinite Hsupported).
    eexists _, _. split; [reflexivity|]. cbn.
    split; [now apply updateProgress_lookup|].
    split; [apply length_map | reflexivity].
Qed.

Lemma settings_reach_the_store_witness :
  let props := Sample.props Sample.tokyo in
  let st := Sample.loaded Sample.tokyo 8 3.5 in
  let app := App.mkState [Sample.hundred; Sample.tokyo] (Some Sample.tokyo)
               (Some (lit "blob:audio")) false Sample.tokyo_text false None in
  HistoryItem.repeatMode
    <$> App.history (App.onUpdateProgress_all
                       (repeatMenu_onClick props st 10).2 app) !! 1%nat
  = Some 10
  /\ exists st' updates,
       speedMenu_onClick Sample.rateSupported props st 2 = Normal (st', updates)
       /\ HistoryItem.playbackRate
            <$> App.history (App.onUpdateProgress_all updates app) !! 1%nat
          = Some (Some 2%float).
Proof.
  intros props st app.
  destruct (settings_reach_the_store Sample.rateSupported props st
              (Audio.mk 3.5 8 true 1) app 1
              Sample.tokyo eq_refl eq_refl eq_refl) as [Hrepeat Hspeed].
  destruct (Hrepeat 10) as (Hten & _).
  destruct (Hspeed 2%float) as (st' & updates & Hclick & Htwo & _).
  - intros Heq. apply (f_equal Prim2SF) in Heq. vm_compute in Heq.
    discriminate Heq.
  - reflexivity.
  - reflexivity.
  - split; [now rewrite Hten|].
    exists st', updates. split; [exact Hclick | now rewrite Htwo].
Defined.

(** X23.  Mounting the player reports the settings it starts with to
    the history at once.  For an item with a finite position that is
    positive or 0, a repeat count other than 0 and a positive finite rate
    that the user agent supports, the effects do not throw, and the report
    changes nothing in a store whose items with that id are this item. *)
Theorem mount_report_keeps_store (rateSupported : float -> bool)
  (props : Props) (a : Audio.t) (app : App.State) :
  let item := activeItem props in
  (PrimFloat.ltb 0 (HistoryItem.lastPosition item) = true
   /\ PrimFloat.is_finite (HistoryItem.lastPosition item) = true)
  \/ HistoryItem.lastPosition item = 0%float ->
  HistoryItem.repeatMode item <> 0 ->
  (exists rate, HistoryItem.playbackRate item = Some rate
                /\ PrimFloat.ltb 0 rate = true
                /\ PrimFloat.is_finite rate = true
                /\ rateSupported rate = true) ->
  (forall x, x ∈ App.history app ->
             HistoryItem.id x = HistoryItem.id item -> x = item) ->
  exists st,
    mount rateSupported props a
    = Normal
        (st,
         [mkProgressUpdate (HistoryItem.id item)
            (HistoryItem.lastPosition item) (HistoryItem.repeatMode item)
            (default 1%float (HistoryItem.playbackRate item))])
    /\ App.history
         (App.onUpdateProgress_all
            [mkProgressUpdate (HistoryItem.id item)
               (HistoryItem.lastPosition item) (HistoryItem.repeatMode item)
               (default 1%float (HistoryItem.playbackRate item))] app)
       = App.history app.
Proof.
  intros item Hpos Hmode (rate & Hrate & Hratepos & Hfinite & Hsupported)
    Hstore.
  assert (Hinit_rate : playbackRate (init props) = rate).
  { unfold init. cbn [playbackRate]. fold item. rewrite Hrate.
    apply (num_or_positive rate 1 Hratepos). }
  assert (Hinit_time : currentTime (init props)
                       = HistoryItem.lastPosition item).
  { unfold init. cbn [currentTime]. fold item.
    destruct Hpos as [[Hpos _] | Hzero].
    - apply (num_or_positive _ 0 Hpos).
    - now rewrite Hzero. }
  assert (Hinit_mode : repeatMode (init props) = HistoryItem.repeatMode item).
  { unfold init. cbn [repeatMode]. fold item.
    now rewrite (proj2 (Z.eqb_neq _ _) Hmode). }
  eexists. split.
  - rewrite mount_accepted.
    + fold item. rewrite Hinit_rate, Hinit_time, Hinit_mode, Hrate.
      reflexivity.
    + fold item. destruct Hpos as [[_ Hfin] | Hzero]; [now intros _|].
      rewrite Hzero. discriminate.
    + now rewrite Hinit_rate.
    + now rewrite Hinit_rate.
  - cbn. rewrite Hrate. cbn [default].
    induction (App.history app) as [|x h IH]; [reflexivity|].
    rewrite updateProgress_cons, IH
      by (intros y Hy; apply Hstore; now right).
    f_equal.
    destruct (decide (HistoryItem.id x = HistoryItem.id item)) as [Hid|];
      [|reflexivity].
    rewrite (Hstore x ltac:(left) Hid). change (id rate) with rate.
    rewrite <- Hrate. subst item. now destruct (activeItem props).
Qed.

Lemma mount_report_keeps_store_witness :
  let item := HistoryItem.mk (lit "id-1") Sample.tokyo_text None
                1700000000000 3.5 5 (Some 1.5%float) in
  let app := App.mkState [Sample.hundred; item] (Some item) None false
               Sample.tokyo_text false None in
  exists st updates,
    mount Sample.rateSupported (Sample.props item) (Audio.mk 0 nan true 1)
    = Normal (st, updates)
    /\ App.history (App.onUpdateProgress_all updates app)
       = [Sample.hundred; item].
Proof.
  intros item app.
  destruct (mount_report_keeps_store Sample.rateSupported (Sample.props item)
              (Audio.mk 0 nan true 1) app) as (st & Hmount & Hsame).
  - left. split; reflexivity.
  - discriminate.
  - exists 1.5%float. repeat split; reflexivity.
  - intros x [-> | [-> | Hin]%elem_of_cons]%elem_of_cons.
    + discriminate.
    + reflexivity.
    + inversion Hin.
  - exists st. eexists. split; [exact Hmount | exact Hsame].
Defined.

End PlayerReports.
